(** * ChatWindow: the reasoning cleaner and the stream accumulator

    A shallow embedding of [src/components/ChatWindow.tsx].  The file holds
    two versions of the component: the first one (here [Module V1]) keeps
    the reasoning in a ref and cleans it with [cleanReasoningChain] when
    the stream ends; the second one (here [Module V2]) keeps the partial
    reasoning and answer in React state.

    JavaScript strings are sequences of UTF-16 code units, so a string is
    a list of code units ([N]); [length], [endsWith], [trim], [split] and
    [replace] all work on code units. *)

From Stdlib Require Import NArith ZArith Bool Lia.
From Stdlib Require Import Strings.String Strings.Ascii.
From stdpp Require Import base list.

Local Open Scope N_scope.

(** ** JavaScript strings *)

Abbreviation jsstring := (list N).

(** An ASCII literal as a JavaScript string. *)
Definition js (s : string) : jsstring :=
  map N_of_ascii (list_ascii_of_string s).
Arguments js s%_string.

(** [a === b] on strings. *)
Fixpoint str_eqb (a b : jsstring) : bool :=
  match a, b with
  | [], [] => true
  | x :: a', y :: b' => (x =? y) && str_eqb a' b'
  | _, _ => false
  end.

(** The characters matched by [\s] in a regular expression, which are also
    the ones [String.prototype.trim] strips (WhiteSpace and
    LineTerminator of ECMAScript). *)
Definition is_ws (c : N) : bool :=
  ((9 <=? c) && (c <=? 13)) || (c =? 32) || (c =? 160) || (c =? 5760)
  || ((8192 <=? c) && (c <=? 8202)) || (c =? 8232) || (c =? 8233)
  || (c =? 8239) || (c =? 8287) || (c =? 12288) || (c =? 65279).

Fixpoint drop_ws (s : jsstring) : jsstring :=
  match s with
  | c :: rest => if is_ws c then drop_ws rest else s
  | [] => []
  end.

(** [s.trim()] *)
Definition trim (s : jsstring) : jsstring :=
  rev (drop_ws (rev (drop_ws s))).

(** [s.startsWith(t)] *)
Fixpoint startsWith (s t : jsstring) {struct t} : bool :=
  match t, s with
  | [], _ => true
  | y :: t', x :: s' => (x =? y) && startsWith s' t'
  | _ :: _, [] => false
  end.

(** [s.endsWith(t)]: [t] is no longer than [s] and the last [t.length]
    code units of [s] are those of [t]. *)
Definition endsWith (s t : jsstring) : bool :=
  (length t <=? length s)%nat
  && str_eqb (drop (length s - length t) s) t.

(** [arr.join(sep)] *)
Fixpoint join (sep : jsstring) (arr : list jsstring) : jsstring :=
  match arr with
  | [] => []
  | [t] => t
  | t :: rest => t ++ sep ++ join sep rest
  end.

(** ** The reasoning cleaner *)

Definition DOT : N := 46.
Definition QUESTION : N := 63.
Definition SPACE : N := 32.

(** [s.replace(/[c]{2,}/g, "c")]: the pattern is greedy, so each match is
    a maximal run of two or more [c], and it is replaced by one [c].  A
    [c] that is followed by another [c] is therefore dropped, and the last
    [c] of every run stays. *)
Fixpoint collapse_runs (c : N) (s : jsstring) : jsstring :=
  match s with
  | [] => []
  | x :: rest =>
      if (x =? c) && match rest with y :: _ => y =? c | [] => false end
      then collapse_runs c rest
      else x :: collapse_runs c rest
  end.

(** [s.split(/\s+/)].  Every maximal run of white space is one separator;
    a separator at the start or at the end of [s] leaves an empty piece
    there, and the empty string gives one empty piece.  [inrun] tells that
    the previous code unit belonged to a separator; the head of the result
    is the piece that starts at the current position. *)
Fixpoint split_ws_from (inrun : bool) (s : jsstring) : list jsstring :=
  match s with
  | [] => [[]]
  | c :: rest =>
      if is_ws c then
        if inrun then split_ws_from true rest
        else [] :: split_ws_from true rest
      else
        match split_ws_from false rest with
        | piece :: pieces => (c :: piece) :: pieces
        | [] => [[c]]
        end
  end.

Definition split_ws (s : jsstring) : list jsstring := split_ws_from false s.

(** [arr[arr.length - 1]], when [arr.length] is not zero. *)
Definition last_token (arr : list jsstring) : option jsstring := last arr.

(** [arr[arr.length - 1] = t] *)
Definition set_last (arr : list jsstring) (t : jsstring) : list jsstring :=
  <[pred (length arr) := t]> arr.

(** One round of the loop that removes consecutive exact duplicates. *)
Definition dedup_step (newTokens : list jsstring) (t : jsstring)
  : list jsstring :=
  match last_token newTokens with
  | Some l => if str_eqb l t then newTokens else newTokens ++ [t]
  | None => newTokens ++ [t]
  end.

(** One round of the fusion loop. *)
Definition fuse_step (fusedTokens : list jsstring) (t : jsstring)
  : list jsstring :=
  match last_token fusedTokens with
  | Some l =>
      if endsWith l t || endsWith t l then
        if (length l <? length t)%nat then set_last fusedTokens t
        else fusedTokens
      else fusedTokens ++ [t]
  | None => fusedTokens ++ [t]
  end.

Definition cleanReasoningChain (text : jsstring) : jsstring :=
  let simplifiedPunctuation :=
    collapse_runs QUESTION (collapse_runs DOT text) in
  let tokens := split_ws simplifiedPunctuation in
  let tokens := List.filter (fun t => negb (str_eqb (trim t) [])) tokens in
  let newTokens := fold_left dedup_step tokens [] in
  let fusedTokens := fold_left fuse_step newTokens [] in
  join (js " ") fusedTokens.

(** A chain: every two neighbours of the list are related. *)
Fixpoint chain {A} (R : A -> A -> Prop) (l : list A) : Prop :=
  match l with
  | x :: (y :: _) as rest => R x y /\ chain R rest
  | _ => True
  end.


(** The tokens of a string, as [cleanReasoningChain] takes them from the
    text (the split and the filter of its lines 25 and 28). *)
Definition tokenize (s : jsstring) : list jsstring :=
  List.filter (fun t => negb (str_eqb (trim t) [])) (split_ws s).

(** A string without white space. *)
Definition ws_free (t : jsstring) : Prop :=
  Forall (fun c => is_ws c = false) t.

(** A well-formed token: not empty and without white space. *)
Definition good_token (t : jsstring) : Prop := t <> [] /\ ws_free t.

(** Neither string is a suffix of the other. *)
Definition unrelated (a b : jsstring) : Prop :=
  ~ a `suffix_of` b /\ ~ b `suffix_of` a.

(** No two neighbouring code units are both [c]. *)
Definition no_double (c : N) (s : jsstring) : Prop :=
  chain (fun x y => ~ (x = c /\ y = c)) s.

(** The token list that [cleanReasoningChain] joins at its last line. *)
Definition fusedTokens (text : jsstring) : list jsstring :=
  fold_left fuse_step
    (fold_left dedup_step
       (tokenize (collapse_runs QUESTION (collapse_runs DOT text))) []) [].

(** ** More string primitives of the stream reader *)

Definition NEWLINE : N := 10.
Definition QUOTE : N := 34.

(** [s.split('\n')], for a separator [sep] of one code unit. *)
Fixpoint split_char (sep : N) (s : jsstring) : list jsstring :=
  match s with
  | [] => [[]]
  | c :: rest =>
      if c =? sep then [] :: split_char sep rest
      else
        match split_char sep rest with
        | piece :: pieces => (c :: piece) :: pieces
        | [] => [[c]]
        end
  end.

(** [s.replace(pat, rep)] with a string pattern: only the first occurrence
    of [pat] is replaced ([rep] holds no [$] here, so it is taken as it
    is). *)
Fixpoint replace_first (pat rep s : jsstring) : jsstring :=
  if startsWith s pat then rep ++ drop (length pat) s
  else
    match s with
    | [] => []
    | c :: rest => c :: replace_first pat rep rest
    end.

(** [s.includes(pat)] *)
Fixpoint includes (s pat : jsstring) : bool :=
  startsWith s pat
  || match s with
     | [] => false
     | _ :: rest => includes rest pat
     end.

Fixpoint digits (u : Decimal.uint) : jsstring :=
  match u with
  | Decimal.Nil => []
  | Decimal.D0 u => 48 :: digits u
  | Decimal.D1 u => 49 :: digits u
  | Decimal.D2 u => 50 :: digits u
  | Decimal.D3 u => 51 :: digits u
  | Decimal.D4 u => 52 :: digits u
  | Decimal.D5 u => 53 :: digits u
  | Decimal.D6 u => 54 :: digits u
  | Decimal.D7 u => 55 :: digits u
  | Decimal.D8 u => 56 :: digits u
  | Decimal.D9 u => 57 :: digits u
  end.

(** A natural number in a template literal. *)
Definition decimal (n : N) : jsstring := digits (N.to_uint n).

(** The text of a chunk as the reader loop sees it:
    [chunk.split('\n').filter(line => line.trim() !== '')]. *)
Definition chunk_lines (chunk : jsstring) : list jsstring :=
  List.filter (fun line => negb (str_eqb (trim line) []))
    (split_char NEWLINE chunk).

Definition SENTINEL : jsstring := js "data: [DONE]".
Definition DATA_PREFIX : jsstring := js "data: ".

(** [line.trim() === 'data: [DONE]'] *)
Definition is_sentinel (line : jsstring) : bool :=
  str_eqb (trim line) SENTINEL.

(** [line.replace('data: ', '')], the argument of [JSON.parse]. *)
Definition strip_prefix (line : jsstring) : jsstring :=
  replace_first DATA_PREFIX [] line.

(** ** Values that [JSON.parse] returns

    A number is kept by what this code can observe of it: whether it is
    zero (then it is falsy) and the text that string concatenation gives
    it.  An object is the list of its properties. *)
#[local] Set Warnings "-register-all".
Inductive JSON : Type :=
| JNull
| JBool (b : bool)
| JNumber (zero : bool) (text : jsstring)
| JString (s : jsstring)
| JArray (items : list JSON)
| JObject (fields : list (jsstring * JSON)).

Fixpoint lookup_field (fields : list (jsstring * JSON)) (key : jsstring)
  : option JSON :=
  match fields with
  | [] => None
  | (k, v) :: rest => if str_eqb k key then Some v else lookup_field rest key
  end.

(** [v.key] for [key] one of [choices], [finish_reason], [delta],
    [reasoning_content] and [content]; [None] is [undefined].  Strings,
    arrays, numbers and booleans have no property of these names.  On
    [null] the access throws; the callers below test for [null] first. *)
Definition get_field (v : JSON) (key : jsstring) : option JSON :=
  match v with
  | JObject fields => lookup_field fields key
  | _ => None
  end.

(** [v?.[0]], where [v] may be [undefined]. *)
Definition index0 (v : option JSON) : option JSON :=
  match v with
  | Some (JArray items) => head items
  | Some (JString s) =>
      match s with
      | c :: _ => Some (JString [c])
      | [] => None
      end
  | Some (JObject fields) => lookup_field fields (js "0")
  | _ => None
  end.

(** Truthiness of a value. *)
Definition truthy (v : JSON) : bool :=
  match v with
  | JNull => false
  | JBool b => b
  | JNumber zero _ => negb zero
  | JString s => negb (str_eqb s [])
  | JArray _ => true
  | JObject _ => true
  end.

Definition truthy_opt (v : option JSON) : bool :=
  match v with
  | Some v => truthy v
  | None => false
  end.

(** [v != null]: the value itself when it is neither [undefined] nor
    [null]. *)
Definition non_null (v : option JSON) : option JSON :=
  match v with
  | Some JNull => None
  | other => other
  end.

(** The string that [s + v] appends for [v].  Array elements are joined by
    commas, [null] elements giving the empty string; an object gives
    [[object Object]] (objects are taken to have no [toString] or
    [valueOf] property of their own). *)
Fixpoint to_string (v : JSON) : jsstring :=
  match v with
  | JNull => js "null"
  | JBool true => js "true"
  | JBool false => js "false"
  | JNumber _ text => text
  | JString s => s
  | JArray items =>
      join (js ",")
        (map (fun item => match item with
                          | JNull => []
                          | _ => to_string item
                          end) items)
  | JObject _ => js "[object Object]"
  end.

(** ** Messages and the outside world *)

Record Message := mkMessage {
  content : jsstring;
  isUser : bool;
  reasoning : option jsstring;
  isComplete : option bool;
  showReasoning : option bool
}.

(** What a [catch] clause receives: an [Error] with its message, or any
    other value. *)
Inductive Thrown :=
| ErrorObject (message : jsstring)
| OtherValue.

(** One [await reader.read()] that does not report [done]: a chunk, given
    by the text the decoder makes of it, or a failure.  A stream is a list
    of them; at its end the reader reports [done]. *)
Inductive ReadResult :=
| Chunk (text : jsstring)
| ReadFails (e : Thrown).

(** [body] is [None] when the response has no body to read. *)
Record Response := mkResponse {
  ok : bool;
  status : N;
  body : option (list ReadResult)
}.

Inductive FetchResult :=
| Rejected (e : Thrown)
| Resolved (r : Response).

(** Calls that the reader loop makes to its environment, in order. *)
Inductive Effect :=
| ReadCall
| ParseCall (arg : jsstring)
| ConsoleError.

Inductive LoopCtl := Next | Break.

(** How the reader loop ends. *)
Inductive LoopEnd :=
| StreamDone
| Finished
| ReadThrew (e : Thrown).

(** [{ content: prompt, isUser: true }] *)
Definition user_message (prompt : jsstring) : Message :=
  mkMessage prompt true None None None.

(** The message of the [catch] clause. *)
Definition error_text (e : Thrown) : jsstring :=
  js "Error: " ++ match e with
                  | ErrorObject message => message
                  | OtherValue => js "Unknown error"
                  end.

Definition error_message (e : Thrown) : Message :=
  mkMessage (error_text e) false None None None.

(** [new Error(`HTTP error! status: ${response.status}`)] *)
Definition http_error (status : N) : Thrown :=
  ErrorObject (js "HTTP error! status: " ++ decimal status).

(** [a || b] on strings. *)
Definition str_or (a b : jsstring) : jsstring :=
  match a with
  | [] => b
  | _ => a
  end.

(** ** The first version: reasoning kept in a ref and cleaned at the end

    React applies the queued state updaters one after the other, in the
    order of the [setMessages] calls, so a call [setMessages(f)] is the
    message list replaced by [f] of it.  A ref is a field of the state that
    holds its [current] value. *)
Module V1.

Record State := mkState {
  messages : list Message;
  isLoading : bool;
  answerMessageIndexRef : Z;
  alreadyCreatedRef : bool;
  reasoningAccumulatorRef : jsstring
}.

Definition set_messages (st : State) (ms : list Message) : State :=
  mkState ms (isLoading st) (answerMessageIndexRef st) (alreadyCreatedRef st)
    (reasoningAccumulatorRef st).

Definition set_isLoading (st : State) (b : bool) : State :=
  mkState (messages st) b (answerMessageIndexRef st) (alreadyCreatedRef st)
    (reasoningAccumulatorRef st).

Definition set_answerMessageIndexRef (st : State) (i : Z) : State :=
  mkState (messages st) (isLoading st) i (alreadyCreatedRef st)
    (reasoningAccumulatorRef st).

Definition set_alreadyCreatedRef (st : State) (b : bool) : State :=
  mkState (messages st) (isLoading st) (answerMessageIndexRef st) b
    (reasoningAccumulatorRef st).

Definition set_reasoningAccumulatorRef (st : State) (r : jsstring) : State :=
  mkState (messages st) (isLoading st) (answerMessageIndexRef st)
    (alreadyCreatedRef st) r.

(** [idx >= 0 && newArr[idx]] *)
Definition message_at (arr : list Message) (idx : Z) : option Message :=
  if (0 <=? idx)%Z then arr !! Z.to_nat idx else None.

Definition appendContentToFinalMessage (contentChunk : JSON) (st : State)
  : State :=
  let idx := answerMessageIndexRef st in
  match message_at (messages st) idx with
  | Some m =>
      let oldContent := str_or (content m) [] in
      set_messages st
        (<[Z.to_nat idx :=
             mkMessage (oldContent ++ to_string contentChunk) (isUser m)
               (reasoning m) (isComplete m) (showReasoning m)]>
           (messages st))
  | None => st
  end.

Definition createFinalMessage (st : State) : State :=
  let newArr :=
    messages st ++ [mkMessage [] false (Some []) (Some false) (Some true)] in
  set_answerMessageIndexRef (set_messages st newArr)
    (Z.of_nat (length newArr) - 1).

Definition finalizeMessage (st : State) : State :=
  let deduplicatedReason := cleanReasoningChain (reasoningAccumulatorRef st) in
  let idx := answerMessageIndexRef st in
  let st :=
    match message_at (messages st) idx with
    | Some m =>
        set_messages st
          (<[Z.to_nat idx :=
               mkMessage (content m) (isUser m) (Some deduplicatedReason)
                 (Some true) (showReasoning m)]>
             (messages st))
    | None => st
    end in
  set_reasoningAccumulatorRef st [].

(** What the [try] block reads from the parsed line before it changes
    anything. *)
Inductive Decoded :=
| Throws
| NoChoice
| NoDelta (finish : bool)
| Delta (finish : bool) (reasoning_content content : option JSON).

(** [parsed] is the result of [JSON.parse], [None] when it throws.  On
    [null] the access [data.choices] throws. *)
Definition decode (parsed : option JSON) : Decoded :=
  match parsed with
  | None => Throws
  | Some JNull => Throws
  | Some data =>
      match index0 (get_field data (js "choices")) with
      | None => NoChoice
      | Some choice =>
          if negb (truthy choice) then NoChoice
          else
            let finish := truthy_opt (get_field choice (js "finish_reason")) in
            match get_field choice (js "delta") with
            | None => NoDelta finish
            | Some delta =>
                if negb (truthy delta) then NoDelta finish
                else
                  Delta finish
                    (non_null (get_field delta (js "reasoning_content")))
                    (non_null (get_field delta (js "content")))
            end
      end
  end.

(** The two [if]s on the delta, lines 200 to 212. *)
Definition apply_delta (reasoning_content content : option JSON) (st : State)
  : State :=
  let st :=
    match reasoning_content with
    | Some v =>
        set_reasoningAccumulatorRef st
          (reasoningAccumulatorRef st ++ to_string v)
    | None => st
    end in
  match content with
  | Some v =>
      let st :=
        if negb (alreadyCreatedRef st)
        then set_alreadyCreatedRef (createFinalMessage st) true
        else st in
      appendContentToFinalMessage v st
  | None => st
  end.

Section Reader.

(** [JSON.parse]; [None] when it throws. *)
Variable JSON_parse : jsstring -> option JSON.

(** The body of the [for] loop over the lines of a chunk: the new state,
    the flag [finished], whether the loop goes on, and the calls made. *)
Definition process_line (st : State) (finished : bool) (line : jsstring)
  : State * bool * LoopCtl * list Effect :=
  if is_sentinel line then (st, true, Break, [])
  else
    let arg := strip_prefix line in
    match decode (JSON_parse arg) with
    | Throws => (st, finished, Next, [ParseCall arg; ConsoleError])
    | NoChoice => (st, finished, Next, [ParseCall arg])
    | NoDelta finish => (st, finish || finished, Next, [ParseCall arg])
    | Delta finish reasoning_content content =>
        (apply_delta reasoning_content content st, finish || finished, Next,
         [ParseCall arg])
    end.

Fixpoint process_lines (st : State) (finished : bool) (lines : list jsstring)
  : State * bool * list Effect :=
  match lines with
  | [] => (st, finished, [])
  | line :: rest =>
      match process_line st finished line with
      | (st, finished, Break, log) => (st, finished, log)
      | (st, finished, Next, log) =>
          let '(st, finished, log') := process_lines st finished rest in
          (st, finished, log ++ log')
      end
  end.

(** The [while (true)] loop over the reads. *)
Fixpoint read_loop (st : State) (finished : bool) (stream : list ReadResult)
  : State * LoopEnd * list Effect :=
  match stream with
  | [] => (st, StreamDone, [ReadCall])
  | ReadFails e :: _ => (st, ReadThrew e, [ReadCall])
  | Chunk chunk :: rest =>
      let lines := chunk_lines chunk in
      let '(st, finished, log) := process_lines st finished lines in
      if finished then (st, Finished, ReadCall :: log)
      else
        let '(st, ending, log') := read_loop st finished rest in
        (st, ending, ReadCall :: log ++ log')
  end.

(** The statements of [handleSend] before the [try]. *)
Definition start_turn (st : State) (prompt : jsstring) : State :=
  let st := set_messages st (messages st ++ [user_message prompt]) in
  let st := set_isLoading st true in
  let st := set_answerMessageIndexRef st (-1) in
  let st := set_alreadyCreatedRef st false in
  set_reasoningAccumulatorRef st [].

(** The [try] block: the state it leaves and what it throws, if anything. *)
Definition try_block (st : State) (fetch : FetchResult)
  : State * option Thrown * list Effect :=
  match fetch with
  | Rejected e => (st, Some e, [])
  | Resolved response =>
      if negb (ok response) then (st, Some (http_error (status response)), [])
      else
        match body response with
        | None => (finalizeMessage st, None, [])
        | Some stream =>
            match read_loop st false stream with
            | (st, ReadThrew e, log) => (st, Some e, log)
            | (st, _, log) => (finalizeMessage st, None, log)
            end
        end
  end.

Definition handleSend (st : State) (prompt : jsstring) (fetch : FetchResult)
  : State * list Effect :=
  let st := start_turn st prompt in
  let '(st, thrown, log) := try_block st fetch in
  let st :=
    match thrown with
    | Some e => set_messages st (messages st ++ [error_message e])
    | None => st
    end in
  (set_isLoading st false, log).

End Reader.

End V1.

(** ** The second version: partial reasoning and answer in React state

    [currentReasoning] and [currentResponse] are state; the updaters
    [setCurrentReasoning(prev => ...)] and [setCurrentResponse(prev => ...)]
    are applied in order, as for the messages.  Inside one call of
    [handleSend] the names [currentReasoning] and [currentResponse] denote
    the values that the closure captured, which are the values of the
    state when the call starts. *)
Module V2.

Record State := mkState {
  messages : list Message;
  isLoading : bool;
  currentReasoning : jsstring;
  currentResponse : jsstring
}.

(** The local variables of one call of [handleSend]. *)
Record Locals := mkLocals {
  reasoningComplete : bool;
  reasoningMessageIndex : Z
}.

Definition set_messages (st : State) (ms : list Message) : State :=
  mkState ms (isLoading st) (currentReasoning st) (currentResponse st).

Definition set_isLoading (st : State) (b : bool) : State :=
  mkState (messages st) b (currentReasoning st) (currentResponse st).

Definition set_currentReasoning (st : State) (r : jsstring) : State :=
  mkState (messages st) (isLoading st) r (currentResponse st).

Definition set_currentResponse (st : State) (r : jsstring) : State :=
  mkState (messages st) (isLoading st) (currentReasoning st) r.

(** What the [try] block reads from the parsed line:
    [data.choices?.[0]?.delta], then [delta?.reasoning_content] and
    [delta?.content], each kept when it is not [null]. *)
Inductive Decoded :=
| Throws
| Delta (reasoning_content content : option JSON).

Definition decode (parsed : option JSON) : Decoded :=
  match parsed with
  | None => Throws
  | Some JNull => Throws
  | Some data =>
      match non_null (index0 (get_field data (js "choices"))) with
      | None => Delta None None
      | Some choice =>
          match non_null (get_field choice (js "delta")) with
          | None => Delta None None
          | Some delta =>
              Delta (non_null (get_field delta (js "reasoning_content")))
                    (non_null (get_field delta (js "content")))
          end
      end
  end.

Section Reader.

Variable JSON_parse : jsstring -> option JSON.

(** The values of [currentReasoning] and [currentResponse] that the
    closure of this call holds. *)
Variable capturedReasoning capturedResponse : jsstring.

Definition apply_delta (reasoning_content content : option JSON)
    (st : State) (loc : Locals) : State * Locals :=
  let st :=
    match reasoning_content with
    | Some v => set_currentReasoning st (currentReasoning st ++ to_string v)
    | None => st
    end in
  match content with
  | Some v =>
      let '(st, loc) :=
        if negb (reasoningComplete loc) then
          let newMessages :=
            messages st ++
              [mkMessage [] false (Some capturedReasoning) (Some false)
                 (Some true)] in
          (set_currentReasoning (set_messages st newMessages) [],
           mkLocals true (Z.of_nat (length newMessages) - 1))
        else (st, loc) in
      (set_currentResponse st (currentResponse st ++ to_string v), loc)
  | None => (st, loc)
  end.

(** The body of the [for] loop; the sentinel line is passed over with
    [continue]. *)
Definition process_line (st : State) (loc : Locals) (line : jsstring)
  : State * Locals * list Effect :=
  if is_sentinel line then (st, loc, [])
  else
    let arg := strip_prefix line in
    match decode (JSON_parse arg) with
    | Throws => (st, loc, [ParseCall arg; ConsoleError])
    | Delta reasoning_content content =>
        let '(st, loc) := apply_delta reasoning_content content st loc in
        (st, loc, [ParseCall arg])
    end.

Fixpoint process_lines (st : State) (loc : Locals) (lines : list jsstring)
  : State * Locals * list Effect :=
  match lines with
  | [] => (st, loc, [])
  | line :: rest =>
      let '(st, loc, log) := process_line st loc line in
      let '(st, loc, log') := process_lines st loc rest in
      (st, loc, log ++ log')
  end.

(** The [while (true)] loop: it ends only when the reader reports [done]
    or a read throws. *)
Fixpoint read_loop (st : State) (loc : Locals) (stream : list ReadResult)
  : State * Locals * LoopEnd * list Effect :=
  match stream with
  | [] => (st, loc, StreamDone, [ReadCall])
  | ReadFails e :: _ => (st, loc, ReadThrew e, [ReadCall])
  | Chunk chunk :: rest =>
      let '(st, loc, log) := process_lines st loc (chunk_lines chunk) in
      let '(st, loc, ending, log') := read_loop st loc rest in
      (st, loc, ending, ReadCall :: log ++ log')
  end.

(** The last [setMessages] of the [try] block and the reset after it.
    When the index is set, the message it names exists: it was pushed by
    this call and the list only grows. *)
Definition finish_turn (st : State) (loc : Locals) : State :=
  let idx := reasoningMessageIndex loc in
  let updatedMessages :=
    if negb (idx =? -1)%Z then
      match messages st !! Z.to_nat idx with
      | Some m =>
          <[Z.to_nat idx :=
              mkMessage (str_or capturedResponse (content m)) (isUser m)
                (match capturedReasoning with
                 | [] => reasoning m
                 | _ => Some capturedReasoning
                 end)
                (Some true) (Some true)]> (messages st)
      | None => messages st
      end
    else
      messages st ++ [mkMessage capturedResponse false None (Some true)
                        (Some false)] in
  set_currentResponse (set_messages st updatedMessages) [].

Definition try_block (st : State) (fetch : FetchResult)
  : State * option Thrown * list Effect :=
  match fetch with
  | Rejected e => (st, Some e, [])
  | Resolved response =>
      if negb (ok response) then (st, Some (http_error (status response)), [])
      else
        let loc := mkLocals false (-1) in
        match body response with
        | None => (finish_turn st loc, None, [])
        | Some stream =>
            match read_loop st loc stream with
            | (st, _, ReadThrew e, log) => (st, Some e, log)
            | (st, loc, _, log) => (finish_turn st loc, None, log)
            end
        end
  end.

(** The statements of [handleSend] before the [try]. *)
Definition start_turn (st : State) (message : jsstring) : State :=
  let st := set_messages st (messages st ++ [user_message message]) in
  let st := set_isLoading st true in
  let st := set_currentReasoning st [] in
  set_currentResponse st [].

End Reader.

Definition handleSend (JSON_parse : jsstring -> option JSON)
    (st : State) (message : jsstring) (fetch : FetchResult)
  : State * list Effect :=
  let capturedReasoning := currentReasoning st in
  let capturedResponse := currentResponse st in
  let '(st, thrown, log) :=
    try_block JSON_parse capturedReasoning capturedResponse
      (start_turn st message) fetch in
  let st :=
    match thrown with
    | Some e => set_messages st (messages st ++ [error_message e])
    | None => st
    end in
  (set_isLoading st false, log).

End V2.

(** ** What a line contributes to a turn of the first version *)

Section Lines.

Variable JSON_parse : jsstring -> option JSON.

Definition decoded_line (line : jsstring) : V1.Decoded :=
  V1.decode (JSON_parse (strip_prefix line)).

(** The text that the line adds to the reasoning accumulator. *)
Definition line_reasoning (line : jsstring) : jsstring :=
  match decoded_line line with
  | V1.Delta _ (Some v) _ => to_string v
  | _ => []
  end.

(** The content delta of the line, if it has one. *)
Definition line_content (line : jsstring) : list jsstring :=
  match decoded_line line with
  | V1.Delta _ _ (Some v) => [to_string v]
  | _ => []
  end.

(** Whether the line carries a truthy [finish_reason]. *)
Definition line_finish (line : jsstring) : bool :=
  match decoded_line line with
  | V1.NoDelta finish => finish
  | V1.Delta finish _ _ => finish
  | _ => false
  end.

(** The calls made for a line that is not the sentinel. *)
Definition line_log (line : jsstring) : list Effect :=
  match decoded_line line with
  | V1.Throws => [ParseCall (strip_prefix line); ConsoleError]
  | _ => [ParseCall (strip_prefix line)]
  end.

Definition lines_reasoning (lines : list jsstring) : jsstring :=
  concat (map line_reasoning lines).

Definition lines_content (lines : list jsstring) : list jsstring :=
  concat (map line_content lines).

(** A line that is processed as an event and does not end the stream. *)
Definition plain_line (line : jsstring) : Prop :=
  is_sentinel line = false /\ line_finish line = false.

(** An event with a reasoning delta [r] and nothing else. *)
Definition reasoning_line (line r : jsstring) : Prop :=
  is_sentinel line = false
  /\ decoded_line line = V1.Delta false (Some (JString r)) None.

(** An event with a content delta [c] and nothing else. *)
Definition content_line (line c : jsstring) : Prop :=
  is_sentinel line = false
  /\ decoded_line line = V1.Delta false None (Some (JString c)).

(** An event with a [finish_reason] and no delta text. *)
Definition finish_line (line : jsstring) : Prop :=
  is_sentinel line = false
  /\ (decoded_line line = V1.NoDelta true
      \/ decoded_line line = V1.Delta true None None).

(** A line on which [JSON.parse] throws. *)
Definition malformed_line (line : jsstring) : Prop :=
  is_sentinel line = false /\ JSON_parse (strip_prefix line) = None.

End Lines.

(** The answer message while it is streamed, and once it is complete. *)
Definition open_answer (text : jsstring) : Message :=
  mkMessage text false (Some []) (Some false) (Some true).

Definition complete_answer (text reason : jsstring) : Message :=
  mkMessage text false (Some reason) (Some true) (Some true).

(** The state of the first version inside a turn: [base] is the message
    list with the user's message, [cs] the content deltas received so far
    and [rs] the reasoning text received so far. *)
Definition turn_state (base : list Message) (cs : list jsstring)
    (rs : jsstring) : V1.State :=
  match cs with
  | [] => V1.mkState base true (-1) false rs
  | _ =>
      V1.mkState (base ++ [open_answer (concat cs)]) true
        (Z.of_nat (length base)) true rs
  end.

(** The states that the first version goes through in one turn: the state
    after [start_turn], and the state after every line processed. *)
Inductive turn_reaches (JSON_parse : jsstring -> option JSON)
    (st0 : V1.State) (prompt : jsstring) : list jsstring -> V1.State -> Prop :=
| reaches_start :
    turn_reaches JSON_parse st0 prompt [] (V1.start_turn st0 prompt)
| reaches_line lines st finished line :
    turn_reaches JSON_parse st0 prompt lines st ->
    turn_reaches JSON_parse st0 prompt (lines ++ [line])
      (V1.process_line JSON_parse st finished line).1.1.1.

(** A message that is an answer still being streamed. *)
Definition is_open_answer (m : Message) : bool :=
  negb (isUser m)
  && match isComplete m with
     | Some false => true
     | _ => false
     end.

(** ** Sample events *)

Definition quoted (s : jsstring) : jsstring := QUOTE :: s ++ [QUOTE].

(** The JSON text of a value whose strings need no escape. *)
Fixpoint render (v : JSON) : jsstring :=
  match v with
  | JNull => js "null"
  | JBool true => js "true"
  | JBool false => js "false"
  | JNumber _ text => text
  | JString s => quoted s
  | JArray items => js "[" ++ join (js ",") (map render items) ++ js "]"
  | JObject fields =>
      js "{"
      ++ join (js ",")
           (map (fun kv => match kv with
                           | (k, v) => quoted k ++ js ":" ++ render v
                           end) fields)
      ++ js "}"
  end.

Definition choice_event (choice : list (jsstring * JSON)) : JSON :=
  JObject [(js "choices", JArray [JObject choice])].

(** The event
    [{"choices":[{"delta":{"reasoning_content":r,"content":null},
                  "finish_reason":null}]}]. *)
Definition reasoning_event (r : string) : JSON :=
  choice_event
    [(js "delta",
      JObject [(js "reasoning_content", JString (js r));
               (js "content", JNull)]);
     (js "finish_reason", JNull)].

(** The event
    [{"choices":[{"delta":{"reasoning_content":null,"content":c},
                  "finish_reason":null}]}]. *)
Definition content_event (c : string) : JSON :=
  choice_event
    [(js "delta",
      JObject [(js "reasoning_content", JNull);
               (js "content", JString (js c))]);
     (js "finish_reason", JNull)].

(** The event [{"choices":[{"delta":{},"finish_reason":"stop"}]}]. *)
Definition finish_event : JSON :=
  choice_event
    [(js "delta", JObject []); (js "finish_reason", JString (js "stop"))].

Definition event_line (v : JSON) : jsstring := DATA_PREFIX ++ render v.

Definition sample_events : list JSON :=
  [reasoning_event "Wait... "; reasoning_event "what?? what??";
   content_event "Hel"; content_event "lo"; finish_event].

(** [JSON.parse] on the texts of the sample events; every other text used
    with it below is not JSON. *)
Definition sample_parse (text : jsstring) : option JSON :=
  List.find (fun v => str_eqb (render v) text) sample_events.

Definition empty_state : V1.State := V1.mkState [] false (-1) false [].

Definition ok_response (stream : list ReadResult) : FetchResult :=
  Resolved (mkResponse true 200 (Some stream)).

(** The first occurrence of [pat] in [s] starts at position [n]. *)
Definition first_occurrence_at (s pat : jsstring) (n : nat) : Prop :=
  startsWith (drop n s) pat = true
  /\ forall k, (k < n)%nat -> startsWith (drop k s) pat = false.

Definition empty_state2 : V2.State := V2.mkState [] false [] [].

(** Sample lines and chunks. *)
Definition line_r1 : jsstring := event_line (reasoning_event "Wait... ").
Definition line_r2 : jsstring := event_line (reasoning_event "what?? what??").
Definition line_c1 : jsstring := event_line (content_event "Hel").
Definition line_c2 : jsstring := event_line (content_event "lo").
Definition line_stop : jsstring := event_line finish_event.
Definition bad_line : jsstring := js "data: {oops".

(** A line with its newline. *)
Definition nl (line : jsstring) : jsstring := line ++ [NEWLINE].

Definition sample_chunks : list jsstring :=
  [nl line_r1 ++ nl line_r2; nl line_c1 ++ nl line_c2;
   nl line_stop ++ nl SENTINEL].

Definition reasoning_only_chunks : list jsstring :=
  [nl line_r1 ++ nl line_r2; nl SENTINEL].

(** The state after a first turn whose stream broke after one content
    delta. *)
Definition after_broken_turn : V1.State :=
  (V1.handleSend sample_parse empty_state (js "hi")
     (ok_response
        [Chunk (nl line_c1); ReadFails (ErrorObject (js "network error"))])).1.

(** ** Further notions for the cleaner and the reader *)

(** A string of white space only. *)
Definition all_ws (s : jsstring) : Prop := Forall (fun c => is_ws c = true) s.

(** The length of a token list joined by a separator of one code unit,
    plus one. *)
Definition joined_length (arr : list jsstring) : nat :=
  fold_right (fun t n => S (length t + n)) 0%nat arr.

(** A text on which the cleaner has nothing to do: no doubled [.] or [?],
    the tokens joined by one space each, and no token a suffix of its
    neighbour. *)
Definition normalized (x : jsstring) : Prop :=
  no_double DOT x /\ no_double QUESTION x
  /\ x = join (js " ") (tokenize x)
  /\ chain unrelated (tokenize x).

(** A token as the cleaner leaves it: not empty, without white space and
    without doubled [.] or [?]. *)
Definition plain_token (t : jsstring) : Prop :=
  good_token t /\ no_double DOT t /\ no_double QUESTION t.

(** ** What the first version renders *)

(** A flag of a message that is set to [true]. *)
Definition flag_set (flag : option bool) : bool :=
  match flag with
  | Some true => true
  | _ => false
  end.

(** [msg.showReasoning && msg.isComplete && msg.reasoning]: whether the
    reasoning block of a message is rendered (line 243). *)
Definition reasoning_shown (msg : Message) : bool :=
  flag_set (showReasoning msg) && flag_set (isComplete msg)
  && match reasoning msg with
     | Some (_ :: _) => true
     | _ => false
     end.

(** [isLoading && answerMessageIndexRef.current === -1]: whether the
    typing indicator is rendered (line 251). *)
Definition typing_indicator (st : V1.State) : bool :=
  V1.isLoading st && (V1.answerMessageIndexRef st =? -1)%Z.

(** ** The states of a turn of the second version

    [base] is the message list with the user's message, [created] tells
    whether the answer message has been pushed, and [cr] and [cp] are the
    partial reasoning and the partial answer. *)
Definition turn_state2 (base : list Message) (capturedReasoning : jsstring)
    (created : bool) (cr cp : jsstring) : V2.State :=
  V2.mkState
    (if created
     then base ++ [mkMessage [] false (Some capturedReasoning) (Some false)
                     (Some true)]
     else base)
    true cr cp.

Definition turn_locals2 (base : list Message) (created : bool) : V2.Locals :=
  if created then V2.mkLocals true (Z.of_nat (length base))
  else V2.mkLocals false (-1).
(** * Part II: properties *)

(** ** The cleaner on the examples of the specification *)

(** "resolução": the c-cedilla is U+00E7 and the a-tilde is U+00E3. *)
Definition resolucao : jsstring := js "resolu" ++ [231; 227] ++ js "o".

Example clean_empty : cleanReasoningChain [] = [].
Proof. reflexivity. Qed.

Example clean_aaa : cleanReasoningChain (js "a a a") = js "a".
Proof. vm_compute. reflexivity. Qed.

Example clean_wait :
  cleanReasoningChain (js "Wait... what??") = js "Wait. what?".
Proof. vm_compute. reflexivity. Qed.

Example clean_fuse_suffix :
  cleanReasoningChain (js "olution resolution") = js "resolution".
Proof. vm_compute. reflexivity. Qed.

Example clean_resolu :
  cleanReasoningChain (js "resolu " ++ resolucao) = js "resolu " ++ resolucao.
Proof. vm_compute. reflexivity. Qed.

(** ** Properties of the string primitives *)

Lemma str_eqb_eq a b : str_eqb a b = true <-> a = b.
Proof.
  revert b; induction a as [|x a IH]; intros [|y b]; simpl; try easy.
  rewrite andb_true_iff, N.eqb_eq, IH. split.
  - intros [-> ->]; reflexivity.
  - intros [= -> ->]; split; reflexivity.
Qed.

Lemma str_eqb_refl a : str_eqb a a = true.
Proof. apply str_eqb_eq; reflexivity. Qed.

Lemma endsWith_suffix s t : endsWith s t = true <-> t `suffix_of` s.
Proof.
  unfold endsWith. rewrite andb_true_iff, Nat.leb_le, str_eqb_eq. split.
  - intros [_ H]. rewrite <- H. apply suffix_drop.
  - intros [k ->]. rewrite length_app. split; [lia|].
    replace (length k + length t - length t)%nat with (length k) by lia.
    apply drop_app_length.
Qed.

Lemma chain_cons {A} (R : A -> A -> Prop) x l :
  chain R (x :: l) <-> (forall y, head l = Some y -> R x y) /\ chain R l.
Proof.
  destruct l as [|y l]; simpl.
  - split; [intros _; split; [intros ? [=]|exact I]|intros _; exact I].
  - split.
    + intros [H1 H2]; split; [intros ? [= <-]; exact H1|exact H2].
    + intros [H1 H2]; split; [apply H1; reflexivity|exact H2].
Qed.

Lemma chain_app {A} (R : A -> A -> Prop) l1 l2 :
  chain R (l1 ++ l2) <->
  chain R l1 /\ chain R l2 /\
  (forall x y, last l1 = Some x -> head l2 = Some y -> R x y).
Proof.
  induction l1 as [|x l1 IH].
  - simpl. split; [intros H; repeat split; [exact H|intros ? ? [=]]|tauto].
  - change ((x :: l1) ++ l2) with (x :: (l1 ++ l2)).
    rewrite !chain_cons, IH. destruct l1 as [|z l1].
    + simpl. split.
      * intros (H1 & _ & H2 & _). repeat split; try easy.
        intros ? ? [= <-]; apply H1.
      * intros ((_ & _) & H2 & H3). repeat split; try easy.
        intros y Hy; apply H3; [reflexivity|exact Hy].
    + change (last (x :: z :: l1)) with (last (z :: l1)). simpl head.
      tauto.
Qed.

Lemma chain_snoc {A} (R : A -> A -> Prop) l x :
  chain R (l ++ [x]) <-> chain R l /\ (forall y, last l = Some y -> R y x).
Proof.
  rewrite chain_app. simpl. split.
  - intros (H1 & _ & H2); split; [exact H1|intros; apply H2; easy].
  - intros (H1 & H2); repeat split; [exact H1|intros ? ? ? [= <-]; auto].
Qed.

Lemma fold_left_invariant {A B} (P : A -> Prop) (Q : B -> Prop)
    (f : A -> B -> A) l a :
  P a -> Forall Q l -> (forall a x, P a -> Q x -> P (f a x)) ->
  P (fold_left f l a).
Proof.
  intros Ha Hl Hf. revert a Ha.
  induction Hl as [|x l Hx _ IH]; intros a Ha; simpl; [exact Ha|].
  apply IH, Hf; assumption.
Qed.

Lemma last_cases {A} (l : list A) :
  (l = [] /\ last l = None) \/ (exists l' x, l = l' ++ [x] /\ last l = Some x).
Proof.
  destruct l as [|y l] using rev_ind; [left; easy|].
  right. exists l, y. split; [reflexivity|apply last_snoc].
Qed.

Lemma set_last_snoc l (x t : jsstring) : set_last (l ++ [x]) t = l ++ [t].
Proof.
  unfold set_last. rewrite length_app; simpl.
  replace (pred (length l + 1)) with (length l + 0)%nat by lia.
  rewrite insert_app_r. reflexivity.
Qed.

(** ** Tokens of the cleaner *)

Lemma split_ws_from_cons b s :
  exists piece pieces, split_ws_from b s = piece :: pieces.
Proof.
  revert b; induction s as [|c s IH]; intros b; simpl; [eauto|].
  destruct (is_ws c).
  - destruct b; [apply IH|eauto].
  - destruct (split_ws_from false s); eauto.
Qed.

Lemma split_ws_from_ws_free b s : Forall ws_free (split_ws_from b s).
Proof.
  revert b; induction s as [|c s IH]; intros b; simpl.
  - repeat constructor.
  - destruct (is_ws c) eqn:Hc.
    + destruct b; [apply IH|constructor; [constructor|apply IH]].
    + specialize (IH false). destruct (split_ws_from false s) as [|p ps].
      * repeat constructor. exact Hc.
      * inversion IH; subst. constructor; [constructor; assumption|assumption].
Qed.

Lemma drop_ws_ws_free t : ws_free t -> drop_ws t = t.
Proof.
  intros H; destruct H as [|c t Hc _]; simpl; [|rewrite Hc]; reflexivity.
Qed.

Lemma ws_free_rev t : ws_free t -> ws_free (rev t).
Proof.
  unfold ws_free. intros H. apply List.Forall_forall. intros c Hc.
  apply in_rev in Hc. rewrite List.Forall_forall in H. auto.
Qed.

Lemma trim_ws_free t : ws_free t -> trim t = t.
Proof.
  intros H. unfold trim. rewrite (drop_ws_ws_free t H).
  rewrite (drop_ws_ws_free _ (ws_free_rev t H)). apply rev_involutive.
Qed.

Lemma tokenize_good s : Forall good_token (tokenize s).
Proof.
  apply List.Forall_forall. intros t Ht.
  apply filter_In in Ht as [Hin Hne].
  assert (Hw : ws_free t).
  { pose proof (split_ws_from_ws_free false s) as H.
    rewrite List.Forall_forall in H. apply H, Hin. }
  split; [|exact Hw]. rewrite (trim_ws_free t Hw) in Hne.
  intros ->. discriminate Hne.
Qed.

(** ** The two loops keep only tokens of their input *)

Lemma dedup_step_Forall (Q : jsstring -> Prop) acc t :
  Forall Q acc -> Q t -> Forall Q (dedup_step acc t).
Proof.
  intros Ha Ht. unfold dedup_step.
  assert (Ht' : Forall Q [t]) by (repeat constructor; assumption).
  destruct (last_token acc) as [l|]; [destruct (str_eqb l t)|];
    try assumption; apply Forall_app; split; assumption.
Qed.

Lemma fuse_step_Forall (Q : jsstring -> Prop) acc t :
  Forall Q acc -> Q t -> Forall Q (fuse_step acc t).
Proof.
  intros Ha Ht. unfold fuse_step, last_token.
  destruct (last_cases acc) as [[-> ->]|(l' & x & -> & ->)].
  - repeat constructor; assumption.
  - assert (Ht' : Forall Q [t]) by (repeat constructor; assumption).
    destruct (_ || _); [destruct (_ <? _)%nat|].
    + rewrite set_last_snoc. apply Forall_app in Ha as [Hl' _].
      apply Forall_app; split; assumption.
    + exact Ha.
    + apply Forall_app; split; assumption.
Qed.

Lemma dedup_Forall (Q : jsstring -> Prop) l :
  Forall Q l -> Forall Q (fold_left dedup_step l []).
Proof.
  intros Hl. apply (fold_left_invariant (Forall Q) Q); auto.
  apply dedup_step_Forall.
Qed.

Lemma fuse_Forall (Q : jsstring -> Prop) l :
  Forall Q l -> Forall Q (fold_left fuse_step l []).
Proof.
  intros Hl. apply (fold_left_invariant (Forall Q) Q); auto.
  apply fuse_step_Forall.
Qed.

(** ** Neighbours of the fused list are unrelated *)

Lemma fuse_step_snoc l x t :
  fuse_step (l ++ [x]) t =
    if endsWith x t || endsWith t x then
      if (length x <? length t)%nat then l ++ [t] else l ++ [x]
    else (l ++ [x]) ++ [t].
Proof.
  unfold fuse_step, last_token. rewrite last_snoc, set_last_snoc. reflexivity.
Qed.

Lemma related_iff x t :
  endsWith x t || endsWith t x = false <-> unrelated x t.
Proof.
  unfold unrelated. rewrite orb_false_iff, <- !not_true_iff_false.
  rewrite !endsWith_suffix. tauto.
Qed.

Lemma fuse_step_chain acc t :
  chain unrelated acc -> chain unrelated (fuse_step acc t).
Proof.
  intros Hc. destruct (last_cases acc) as [[-> _]|(l & x & -> & _)];
    [exact I|].
  rewrite fuse_step_snoc.
  destruct (endsWith x t || endsWith t x) eqn:Hrel.
  - destruct (length x <? length t)%nat eqn:Hlen; [|exact Hc].
    apply Nat.ltb_lt in Hlen.
    assert (Hxt : x `suffix_of` t).
    { apply orb_true_iff in Hrel as [H|H]; apply endsWith_suffix in H;
        [apply suffix_length in H; lia|exact H]. }
    apply chain_snoc in Hc as [Hl Hlast]. apply chain_snoc. split; [exact Hl|].
    intros p Hp. destruct (Hlast p Hp) as [Hpx Hxp]. split.
    + intros Hpt. destruct (suffix_weak_total _ _ _ Hpt Hxt); contradiction.
    + intros Htp. apply Hxp. etransitivity; eassumption.
  - apply related_iff in Hrel. apply chain_snoc. split; [exact Hc|].
    intros y Hy. rewrite last_snoc in Hy. injection Hy as <-. exact Hrel.
Qed.

Lemma fuse_chain l : chain unrelated (fold_left fuse_step l []).
Proof.
  apply (fold_left_invariant (chain unrelated) (fun _ => True)).
  - exact I.
  - apply Forall_true. auto.
  - intros; apply fuse_step_chain; assumption.
Qed.

Lemma unrelated_neq a b : unrelated a b -> a <> b.
Proof. intros [H _] ->. apply H. reflexivity. Qed.

Lemma chain_impl {A} (R S : A -> A -> Prop) l :
  (forall x y, R x y -> S x y) -> chain R l -> chain S l.
Proof.
  intros HRS. induction l as [|x l IH]; [easy|].
  rewrite !chain_cons. intros [H1 H2]. split; auto.
Qed.

(** ** Both loops leave an already clean list alone *)

Lemma dedup_fixed l acc :
  chain (fun a b => a <> b) (acc ++ l) -> fold_left dedup_step l acc = acc ++ l.
Proof.
  revert acc; induction l as [|t l IH]; intros acc Hc; simpl.
  - symmetry; apply app_nil_r.
  - assert (Hstep : dedup_step acc t = acc ++ [t]).
    { unfold dedup_step, last_token.
      destruct (last acc) as [y|] eqn:Hy; [|reflexivity].
      destruct (str_eqb y t) eqn:Heq; [|reflexivity].
      apply str_eqb_eq in Heq as ->.
      apply chain_app in Hc as (_ & _ & H). exfalso.
      apply (H t t Hy); reflexivity. }
    rewrite Hstep, IH; rewrite <- app_assoc; [reflexivity|exact Hc].
Qed.

Lemma fuse_fixed l acc :
  chain unrelated (acc ++ l) -> fold_left fuse_step l acc = acc ++ l.
Proof.
  revert acc; induction l as [|t l IH]; intros acc Hc; simpl.
  - symmetry; apply app_nil_r.
  - assert (Hstep : fuse_step acc t = acc ++ [t]).
    { unfold fuse_step, last_token.
      destruct (last acc) as [y|] eqn:Hy; [|reflexivity].
      apply chain_app in Hc as (_ & _ & H).
      specialize (H y t Hy eq_refl). apply related_iff in H.
      rewrite H. reflexivity. }
    rewrite Hstep, IH; rewrite <- app_assoc; [reflexivity|exact Hc].
Qed.

(** ** Splitting a joined token list gives the tokens back *)

Lemma js_space : js " " = [SPACE].
Proof. reflexivity. Qed.

Lemma is_ws_space : is_ws SPACE = true.
Proof. reflexivity. Qed.

Lemma split_ws_app t r :
  ws_free t ->
  split_ws_from false (t ++ r) =
    match split_ws_from false r with
    | p :: ps => (t ++ p) :: ps
    | [] => [t]
    end.
Proof.
  intros Ht. induction Ht as [|c t Hc _ IH]; simpl.
  - destruct (split_ws_from_cons false r) as (p & ps & ->). reflexivity.
  - rewrite Hc, IH.
    destruct (split_ws_from_cons false r) as (p & ps & ->). reflexivity.
Qed.

Lemma join_cons2 sep t t2 rest :
  join sep (t :: t2 :: rest) = t ++ sep ++ join sep (t2 :: rest).
Proof. reflexivity. Qed.

Lemma join_head sep t rest c :
  head t = Some c -> head (join sep (t :: rest)) = Some c.
Proof.
  destruct t as [|x t]; [discriminate|]. intros [= ->].
  destruct rest; reflexivity.
Qed.

Lemma split_join toks :
  Forall good_token toks -> toks <> [] ->
  split_ws (join (js " ") toks) = toks.
Proof.
  unfold split_ws. intros H. induction H as [|t toks [Hne Hws] Hg IH];
    [contradiction|]. intros _.
  destruct toks as [|t2 toks].
  - simpl. rewrite <- (app_nil_r t) at 1. rewrite (split_ws_app t [] Hws).
    simpl. rewrite app_nil_r. reflexivity.
  - rewrite join_cons2, (split_ws_app t _ Hws), js_space.
    change ([SPACE] ++ ?r) with (SPACE :: r).
    change (split_ws_from false (SPACE :: ?r))
      with ([] :: split_ws_from true r).
    cbv beta iota. rewrite app_nil_r. f_equal.
    inversion Hg as [|? ? [Hne2 Hws2] _]; subst.
    destruct t2 as [|c t2]; [contradiction|].
    assert (Hc : is_ws c = false) by (inversion Hws2; assumption).
    assert (Hj : exists r, join [SPACE] ((c :: t2) :: toks) = c :: r)
      by (destruct toks; eexists; reflexivity).
    destruct Hj as [r Hr]. specialize (IH ltac:(discriminate)).
    rewrite js_space, Hr in IH. rewrite Hr, <- IH.
    simpl. rewrite Hc. reflexivity.
Qed.

Lemma filter_all {A} (f : A -> bool) l :
  Forall (fun x => f x = true) l -> List.filter f l = l.
Proof.
  induction 1 as [|x l Hx _ IH]; simpl; [reflexivity|].
  rewrite Hx, IH. reflexivity.
Qed.

Lemma tokenize_join toks :
  Forall good_token toks -> tokenize (join (js " ") toks) = toks.
Proof.
  intros H. destruct toks as [|t toks]; [reflexivity|].
  unfold tokenize. rewrite (split_join _ H) by discriminate.
  apply filter_all. eapply Forall_impl; [exact H|].
  intros s [Hne Hws]. simpl. rewrite (trim_ws_free s Hws).
  destruct s; [contradiction|reflexivity].
Qed.

(** ** A joined list of good tokens is trimmed *)

Lemma trim_fixed s :
  (forall c, head s = Some c -> is_ws c = false) ->
  (forall c, last s = Some c -> is_ws c = false) ->
  trim s = s.
Proof.
  intros Hh Hl. unfold trim.
  assert (E1 : drop_ws s = s).
  { destruct s as [|c s]; [reflexivity|]. simpl.
    rewrite (Hh c eq_refl). reflexivity. }
  rewrite E1.
  assert (E2 : drop_ws (rev s) = rev s).
  { destruct (last_cases s) as [[-> _]|(l & x & -> & Hx)]; [reflexivity|].
    rewrite rev_app_distr. simpl. rewrite (Hl x Hx). reflexivity. }
  rewrite E2. apply rev_involutive.
Qed.

Lemma join_nonnil sep t rest : t <> [] -> join sep (t :: rest) <> [].
Proof. destruct t; [contradiction|]. destruct rest; discriminate. Qed.

Lemma join_good_last toks c :
  Forall good_token toks -> last (join (js " ") toks) = Some c ->
  is_ws c = false.
Proof.
  intros H. induction H as [|t toks [Hne Hws] Hg IH]; [discriminate|].
  destruct toks as [|t2 toks].
  - simpl. intros Hc. unfold ws_free in Hws.
    rewrite Forall_forall in Hws. apply Hws.
    apply last_Some_elem_of. exact Hc.
  - rewrite join_cons2, !last_app.
    inversion Hg as [|? ? [Hne2 _] _]; subst.
    destruct (last (join (js " ") (t2 :: toks))) as [y|] eqn:Hy.
    + exact IH.
    + apply last_None in Hy.
      apply join_nonnil in Hy; [contradiction|exact Hne2].
Qed.

Lemma join_good_head toks c :
  Forall good_token toks -> head (join (js " ") toks) = Some c ->
  is_ws c = false.
Proof.
  intros H. destruct H as [|t toks [Hne Hws] _]; [discriminate|].
  destruct t as [|x t]; [contradiction|].
  rewrite (join_head _ (x :: t) toks x eq_refl). intros [= <-].
  inversion Hws; assumption.
Qed.

Lemma trim_join toks :
  Forall good_token toks -> trim (join (js " ") toks) = join (js " ") toks.
Proof.
  intros H. apply trim_fixed; intros c Hc;
    [eapply join_good_head|eapply join_good_last]; eassumption.
Qed.

(** ** Punctuation runs *)

Lemma collapse_runs_head c s : head (collapse_runs c s) = head s.
Proof.
  induction s as [|x s IH]; simpl; [reflexivity|].
  destruct (_ && _) eqn:E; [|reflexivity].
  apply andb_true_iff in E as [Hx Hy].
  destruct s as [|y s]; [discriminate|].
  rewrite IH. simpl. apply N.eqb_eq in Hx, Hy. congruence.
Qed.

Lemma collapse_runs_no_double c s : no_double c (collapse_runs c s).
Proof.
  unfold no_double. induction s as [|x s IH]; simpl; [exact I|].
  destruct (_ && _) eqn:E; [exact IH|].
  apply chain_cons. split; [|exact IH].
  intros y Hy [-> ->]. rewrite collapse_runs_head in Hy.
  destruct s as [|z s]; [discriminate|]. injection Hy as ->.
  rewrite N.eqb_refl in E. discriminate E.
Qed.

Lemma collapse_runs_keeps_no_double c d s :
  no_double c s -> no_double c (collapse_runs d s).
Proof.
  unfold no_double. induction s as [|x s IH]; [easy|].
  intros H. apply chain_cons in H as [H1 H2]. simpl.
  destruct (_ && _) eqn:E; [exact (IH H2)|].
  apply chain_cons. split; [|exact (IH H2)].
  intros y Hy. apply H1. rewrite collapse_runs_head in Hy. exact Hy.
Qed.

Lemma collapse_runs_fixed c s : no_double c s -> collapse_runs c s = s.
Proof.
  unfold no_double. induction s as [|x s IH]; intros H; [reflexivity|].
  apply chain_cons in H as [H1 H2]. simpl.
  destruct (_ && _) eqn:E.
  - exfalso. apply andb_true_iff in E as [Hx Hy].
    destruct s as [|y s]; [discriminate|].
    apply (H1 y eq_refl). split; apply N.eqb_eq; assumption.
  - f_equal. apply IH, H2.
Qed.

Lemma split_ws_from_head s p ps y :
  split_ws_from false s = p :: ps -> head p = Some y -> head s = Some y.
Proof.
  destruct s as [|c s]; simpl.
  - intros [= <- <-]; discriminate.
  - destruct (is_ws c); [intros [= <- <-]; discriminate|].
    destruct (split_ws_from false s); intros [= <- <-]; simpl; auto.
Qed.

Lemma split_ws_from_no_double c b s :
  no_double c s -> Forall (no_double c) (split_ws_from b s).
Proof.
  unfold no_double. revert b; induction s as [|x s IH]; intros b H; simpl.
  - repeat constructor.
  - apply chain_cons in H as [H1 H2]. destruct (is_ws x).
    + destruct b; [apply IH, H2|constructor; [exact I|apply IH, H2]].
    + specialize (IH false H2).
      destruct (split_ws_from false s) as [|p ps] eqn:E;
        [repeat constructor|].
      inversion IH; subst. constructor; [|assumption].
      apply chain_cons. split; [|assumption].
      intros y Hy. apply H1. eapply split_ws_from_head; eassumption.
Qed.

Lemma join_no_double c toks :
  c <> SPACE -> Forall (no_double c) toks ->
  no_double c (join (js " ") toks).
Proof.
  intros Hc H. induction H as [|t toks Ht _ IH]; [exact I|].
  destruct toks as [|t2 toks]; [exact Ht|].
  rewrite join_cons2, js_space. unfold no_double in *.
  apply chain_app. split; [exact Ht|]. split.
  - change ([SPACE] ++ ?r) with (SPACE :: r). apply chain_cons.
    split; [|exact IH]. intros y _ [E _]. apply Hc. symmetry; exact E.
  - intros x y _ [= <-] [_ E]. apply Hc. symmetry; exact E.
Qed.

(** ** The tokens that the cleaner joins *)

Lemma clean_join x : cleanReasoningChain x = join (js " ") (fusedTokens x).
Proof. reflexivity. Qed.

Lemma fusedTokens_Forall (Q : jsstring -> Prop) x :
  Forall Q (tokenize (collapse_runs QUESTION (collapse_runs DOT x))) ->
  Forall Q (fusedTokens x).
Proof. intros H. apply fuse_Forall, dedup_Forall, H. Qed.

Lemma fusedTokens_good x : Forall good_token (fusedTokens x).
Proof. apply fusedTokens_Forall, tokenize_good. Qed.

Lemma fusedTokens_unrelated x : chain unrelated (fusedTokens x).
Proof. apply fuse_chain. Qed.

Lemma tokenize_no_double c s :
  no_double c s -> Forall (no_double c) (tokenize s).
Proof.
  intros H. apply List.Forall_forall. intros t Ht.
  apply filter_In in Ht as [Hin _].
  pose proof (split_ws_from_no_double c false s H) as Hall.
  rewrite List.Forall_forall in Hall. apply Hall, Hin.
Qed.

Lemma fusedTokens_no_double c x :
  c = DOT \/ c = QUESTION -> Forall (no_double c) (fusedTokens x).
Proof.
  intros Hc. apply fusedTokens_Forall, tokenize_no_double.
  destruct Hc as [-> | ->].
  - apply collapse_runs_keeps_no_double, collapse_runs_no_double.
  - apply collapse_runs_no_double.
Qed.

Lemma clean_tokens x : tokenize (cleanReasoningChain x) = fusedTokens x.
Proof. rewrite clean_join. apply tokenize_join, fusedTokens_good. Qed.

(** C9. The output of [cleanReasoningChain] is normalised: it has no white
    space at either end, it is its own tokens joined by one space each,
    every token is non-empty and free of white space, and no two
    neighbouring tokens are equal. *)
Theorem clean_output_normalized (x : jsstring) :
  let out := cleanReasoningChain x in
  trim out = out
  /\ out = join (js " ") (tokenize out)
  /\ Forall good_token (tokenize out)
  /\ chain (fun a b => a <> b) (tokenize out).
Proof.
  cbv zeta. rewrite clean_tokens. repeat split.
  - rewrite clean_join. apply trim_join, fusedTokens_good.
  - apply fusedTokens_good.
  - eapply chain_impl; [apply unrelated_neq|apply fusedTokens_unrelated].
Qed.

(** C4. [cleanReasoningChain] is idempotent. *)
Theorem clean_idempotent (x : jsstring) :
  cleanReasoningChain (cleanReasoningChain x) = cleanReasoningChain x.
Proof.
  assert (Hd : no_double DOT (cleanReasoningChain x)).
  { rewrite clean_join. apply join_no_double; [discriminate|].
    apply fusedTokens_no_double; left; reflexivity. }
  assert (Hq : no_double QUESTION (cleanReasoningChain x)).
  { rewrite clean_join. apply join_no_double; [discriminate|].
    apply fusedTokens_no_double; right; reflexivity. }
  pose proof (fusedTokens_unrelated x) as Hu.
  assert (E : fusedTokens (cleanReasoningChain x) = fusedTokens x).
  { unfold fusedTokens at 1.
    rewrite (collapse_runs_fixed DOT _ Hd), (collapse_runs_fixed QUESTION _ Hq).
    rewrite clean_tokens, (dedup_fixed (fusedTokens x) []).
    - apply (fuse_fixed (fusedTokens x) []). exact Hu.
    - simpl. eapply chain_impl; [apply unrelated_neq|exact Hu]. }
  rewrite (clean_join (cleanReasoningChain x)), E.
  symmetry. apply clean_join.
Qed.

(** ** The first version: one turn *)

Lemma str_or_nil_r a : str_or a [] = a.
Proof. destruct a; reflexivity. Qed.

Lemma message_at_last base m :
  V1.message_at (base ++ [m]) (Z.of_nat (length base)) = Some m.
Proof.
  unfold V1.message_at.
  destruct (Z.leb_spec 0 (Z.of_nat (length base))) as [_|H]; [|lia].
  rewrite Nat2Z.id. apply list_lookup_middle. reflexivity.
Qed.

Lemma insert_last (base : list Message) m m' :
  <[Z.to_nat (Z.of_nat (length base)) := m']> (base ++ [m]) = base ++ [m'].
Proof.
  rewrite Nat2Z.id. replace (length base) with (length base + 0)%nat by lia.
  rewrite insert_app_r. reflexivity.
Qed.

Lemma createFinalMessage_index base b i c rs :
  V1.createFinalMessage (V1.mkState base b i c rs) =
    V1.mkState (base ++ [open_answer []]) b (Z.of_nat (length base)) c rs.
Proof.
  unfold V1.createFinalMessage, V1.set_answerMessageIndexRef, V1.set_messages.
  simpl. f_equal. rewrite length_app. simpl. lia.
Qed.

Lemma appendContent_open base text b c rs v :
  V1.appendContentToFinalMessage v
    (V1.mkState (base ++ [open_answer text]) b (Z.of_nat (length base)) c rs) =
  V1.mkState (base ++ [open_answer (text ++ to_string v)]) b
    (Z.of_nat (length base)) c rs.
Proof.
  unfold V1.appendContentToFinalMessage. simpl.
  rewrite message_at_last. unfold V1.set_messages. simpl.
  rewrite insert_last, str_or_nil_r. reflexivity.
Qed.

Lemma reasoning_step base cs rs (rc : option JSON) :
  match rc with
  | Some v =>
      V1.set_reasoningAccumulatorRef (turn_state base cs rs)
        (V1.reasoningAccumulatorRef (turn_state base cs rs) ++ to_string v)
  | None => turn_state base cs rs
  end =
  turn_state base cs
    (rs ++ match rc with Some v => to_string v | None => [] end).
Proof. destruct rc, cs; simpl; rewrite ?app_nil_r; reflexivity. Qed.

Lemma content_step base cs rs v :
  V1.appendContentToFinalMessage v
    (if negb (V1.alreadyCreatedRef (turn_state base cs rs))
     then V1.set_alreadyCreatedRef
            (V1.createFinalMessage (turn_state base cs rs)) true
     else turn_state base cs rs) =
  turn_state base (cs ++ [to_string v]) rs.
Proof.
  destruct cs as [|c0 cs].
  - change (turn_state base [] rs) with (V1.mkState base true (-1) false rs).
    cbn [V1.alreadyCreatedRef negb]. rewrite createFinalMessage_index.
    unfold V1.set_alreadyCreatedRef.
    cbn [V1.messages V1.isLoading V1.answerMessageIndexRef
         V1.reasoningAccumulatorRef].
    rewrite appendContent_open. simpl. rewrite app_nil_r. reflexivity.
  - change (turn_state base (c0 :: cs) rs)
      with (V1.mkState (base ++ [open_answer (concat (c0 :: cs))]) true
              (Z.of_nat (length base)) true rs).
    cbn [V1.alreadyCreatedRef negb]. rewrite appendContent_open.
    change ((c0 :: cs) ++ [to_string v]) with (c0 :: (cs ++ [to_string v])).
    unfold turn_state. do 3 f_equal.
    change (c0 :: (cs ++ [to_string v])) with ((c0 :: cs) ++ [to_string v]).
    rewrite concat_app. simpl. rewrite app_nil_r. reflexivity.
Qed.

Lemma apply_delta_turn_state base cs rs rc c :
  V1.apply_delta rc c (turn_state base cs rs) =
    turn_state base
      (cs ++ match c with Some v => [to_string v] | None => [] end)
      (rs ++ match rc with Some v => to_string v | None => [] end).
Proof.
  unfold V1.apply_delta. cbv zeta. rewrite reasoning_step.
  destruct c as [v|]; [apply content_step|].
  rewrite app_nil_r. reflexivity.
Qed.

Section V1_properties.

Variable JSON_parse : jsstring -> option JSON.

Local Abbreviation process_line := (V1.process_line JSON_parse).
Local Abbreviation process_lines := (V1.process_lines JSON_parse).
Local Abbreviation read_loop := (V1.read_loop JSON_parse).
Local Abbreviation try_block := (V1.try_block JSON_parse).
Local Abbreviation handleSend := (V1.handleSend JSON_parse).

Lemma process_line_sentinel st finished line :
  is_sentinel line = true ->
  process_line st finished line = (st, true, Break, []).
Proof. intros H. unfold V1.process_line. rewrite H. reflexivity. Qed.

Lemma process_line_turn_state base cs rs finished line :
  is_sentinel line = false ->
  process_line (turn_state base cs rs) finished line =
    (turn_state base (cs ++ line_content JSON_parse line)
       (rs ++ line_reasoning JSON_parse line),
     line_finish JSON_parse line || finished, Next,
     line_log JSON_parse line).
Proof.
  intros H. unfold V1.process_line. rewrite H.
  unfold line_content, line_reasoning, line_finish, line_log, decoded_line.
  destruct (V1.decode _) as [| |f|f rc c]; simpl; rewrite ?app_nil_r;
    try reflexivity.
  rewrite apply_delta_turn_state. destruct rc, c; rewrite ?app_nil_r;
    reflexivity.
Qed.

Lemma process_line_next st finished line :
  is_sentinel line = false ->
  exists st' finished' log,
    process_line st finished line = (st', finished', Next, log).
Proof.
  intros H. unfold V1.process_line. rewrite H.
  destruct (V1.decode _); eauto.
Qed.

Lemma process_lines_app st finished pre rest :
  Forall (fun l => is_sentinel l = false) pre ->
  process_lines st finished (pre ++ rest) =
    let '(st1, finished1, log1) := process_lines st finished pre in
    let '(st2, finished2, log2) := process_lines st1 finished1 rest in
    (st2, finished2, log1 ++ log2).
Proof.
  intros H. revert st finished.
  induction H as [|line pre Hl _ IH]; intros st finished.
  - simpl. destruct (process_lines st finished rest) as [[st2 f2] log2].
    reflexivity.
  - simpl. destruct (process_line_next st finished line Hl)
      as (st' & f' & log & ->).
    rewrite IH. destruct (process_lines st' f' pre) as [[st1 f1] log1].
    destruct (process_lines st1 f1 rest) as [[st2 f2] log2].
    rewrite app_assoc. reflexivity.
Qed.

Lemma lines_content_app a b :
  lines_content JSON_parse (a ++ b) =
    lines_content JSON_parse a ++ lines_content JSON_parse b.
Proof. unfold lines_content. rewrite map_app. apply concat_app. Qed.

Lemma lines_reasoning_app a b :
  lines_reasoning JSON_parse (a ++ b) =
    lines_reasoning JSON_parse a ++ lines_reasoning JSON_parse b.
Proof. unfold lines_reasoning. rewrite map_app. apply concat_app. Qed.

Lemma process_lines_turn_state base cs rs finished lines :
  Forall (fun l => is_sentinel l = false) lines ->
  process_lines (turn_state base cs rs) finished lines =
    (turn_state base (cs ++ lines_content JSON_parse lines)
       (rs ++ lines_reasoning JSON_parse lines),
     existsb (line_finish JSON_parse) lines || finished,
     concat (map (line_log JSON_parse) lines)).
Proof.
  intros H. revert cs rs finished.
  induction H as [|line lines Hl _ IH]; intros cs rs finished.
  - simpl. rewrite !app_nil_r. reflexivity.
  - simpl. rewrite (process_line_turn_state _ _ _ _ _ Hl), IH.
    change (lines_content JSON_parse (line :: lines))
      with (line_content JSON_parse line ++ lines_content JSON_parse lines).
    change (lines_reasoning JSON_parse (line :: lines))
      with (line_reasoning JSON_parse line ++ lines_reasoning JSON_parse lines).
    rewrite !app_assoc. f_equal. f_equal.
    destruct (line_finish JSON_parse line),
      (existsb (line_finish JSON_parse) lines), finished; reflexivity.
Qed.

Lemma process_lines_to_sentinel base cs rs finished pre d post :
  Forall (fun l => is_sentinel l = false) pre ->
  is_sentinel d = true ->
  process_lines (turn_state base cs rs) finished (pre ++ d :: post) =
    (turn_state base (cs ++ lines_content JSON_parse pre)
       (rs ++ lines_reasoning JSON_parse pre),
     true, concat (map (line_log JSON_parse) pre)).
Proof.
  intros Hpre Hd. rewrite (process_lines_app _ _ _ _ Hpre).
  rewrite (process_lines_turn_state _ _ _ _ _ Hpre). simpl.
  rewrite (process_line_sentinel _ _ _ Hd), app_nil_r. reflexivity.
Qed.

Lemma plain_lines_no_sentinel lines :
  Forall (plain_line JSON_parse) lines ->
  Forall (fun l => is_sentinel l = false) lines.
Proof.
  intros H. eapply Forall_impl; [exact H|]. intros l [Hs _]. exact Hs.
Qed.

Lemma plain_lines_no_finish lines :
  Forall (plain_line JSON_parse) lines ->
  existsb (line_finish JSON_parse) lines = false.
Proof.
  induction 1 as [|l lines [_ Hf] _ IH]; simpl; [reflexivity|].
  rewrite Hf, IH. reflexivity.
Qed.

(** The reader loop on a stream of chunks whose lines are plain events,
    then possibly one finishing event, then the sentinel: all these events
    are processed, however the lines are spread over the chunks. *)
Lemma read_loop_cut chunks : forall base cs rs A F dl,
  Forall (plain_line JSON_parse) A ->
  (F = [] \/ exists fl, F = [fl] /\ is_sentinel fl = false
                        /\ line_finish JSON_parse fl = true) ->
  is_sentinel dl = true ->
  concat (map chunk_lines chunks) = A ++ F ++ [dl] ->
  exists log,
    read_loop (turn_state base cs rs) false (map Chunk chunks) =
      (turn_state base (cs ++ lines_content JSON_parse (A ++ F))
         (rs ++ lines_reasoning JSON_parse (A ++ F)), Finished, log).
Proof.
  induction chunks as [|c chunks IH]; intros base cs rs A F dl HA HF Hd Hcat.
  - simpl in Hcat. destruct A; [|discriminate].
    destruct HF as [->|(fl & -> & _)]; discriminate.
  - simpl in Hcat. simpl map. cbn [V1.read_loop].
    assert (HFs : Forall (fun l => is_sentinel l = false) (A ++ F)).
    { apply Forall_app. split; [apply plain_lines_no_sentinel, HA|].
      destruct HF as [->|(fl & -> & Hfl & _)]; repeat constructor.
      exact Hfl. }
    assert (Hfin : F <> [] -> existsb (line_finish JSON_parse) (A ++ F) = true).
    { intros HFne. rewrite existsb_app. apply orb_true_iff. right.
      destruct HF as [->|(fl & -> & _ & Hfl)]; [contradiction|].
      simpl. rewrite Hfl. reflexivity. }
    apply List.app_eq_app in Hcat as [l [[HL HR]|[HAl HR]]].
    + destruct l as [|x l].
      * rewrite app_nil_r in HL. simpl in HR. rewrite HL.
        rewrite (process_lines_turn_state _ _ _ _ _
                   (plain_lines_no_sentinel _ HA)).
        rewrite (plain_lines_no_finish _ HA). cbn [orb].
        destruct (IH base (cs ++ lines_content JSON_parse A)
                    (rs ++ lines_reasoning JSON_parse A)
                    [] F dl ltac:(constructor) HF Hd (eq_sym HR))
          as [log Hlog].
        change ([] ++ F) with F in Hlog. rewrite Hlog. eexists.
        rewrite lines_content_app, lines_reasoning_app, !app_assoc.
        reflexivity.
      * destruct HF as [->|(fl & -> & Hfl & Hfin')].
        -- simpl in HR. injection HR as <- Hnil.
           symmetry in Hnil. apply app_eq_nil in Hnil as [-> _].
           rewrite HL, app_nil_r.
           rewrite (process_lines_to_sentinel _ _ _ _ _ _ []
                      (plain_lines_no_sentinel _ HA) Hd).
           eexists. reflexivity.
        -- simpl in HR. injection HR as <- Htail.
           destruct l as [|y l].
           ++ rewrite HL.
              rewrite (process_lines_turn_state _ _ _ _ _ HFs).
              rewrite Hfin by discriminate. eexists. reflexivity.
           ++ simpl in Htail. injection Htail as <- Hnil.
              symmetry in Hnil. apply app_eq_nil in Hnil as [-> _].
              rewrite HL.
              change (A ++ [fl; dl]) with (A ++ [fl] ++ dl :: []).
              rewrite app_assoc.
              rewrite (process_lines_to_sentinel _ _ _ _ _ _ [] HFs Hd).
              eexists. reflexivity.
    + subst A. apply Forall_app in HA as [HL Hl].
      rewrite (process_lines_turn_state _ _ _ _ _
                 (plain_lines_no_sentinel _ HL)).
      rewrite (plain_lines_no_finish _ HL). cbn [orb].
      destruct (IH base (cs ++ lines_content JSON_parse (chunk_lines c))
                  (rs ++ lines_reasoning JSON_parse (chunk_lines c))
                  l F dl Hl HF Hd HR) as [log Hlog].
      rewrite Hlog. eexists.
      rewrite <- (app_assoc (chunk_lines c) l F).
      rewrite (lines_content_app (chunk_lines c)).
      rewrite (lines_reasoning_app (chunk_lines c)), !app_assoc.
      reflexivity.
Qed.

Lemma start_turn_turn_state st prompt :
  V1.start_turn st prompt =
    turn_state (V1.messages st ++ [user_message prompt]) [] [].
Proof. reflexivity. Qed.

Lemma finalizeMessage_turn_state base cs rs :
  V1.finalizeMessage (turn_state base cs rs) =
    match cs with
    | [] => V1.mkState base true (-1) false []
    | _ =>
        V1.mkState
          (base ++ [complete_answer (concat cs) (cleanReasoningChain rs)])
          true (Z.of_nat (length base)) true []
    end.
Proof.
  destruct cs as [|c0 cs]; [reflexivity|].
  unfold V1.finalizeMessage, turn_state.
  cbn [V1.messages V1.answerMessageIndexRef V1.reasoningAccumulatorRef].
  rewrite message_at_last.
  unfold V1.set_messages, V1.set_reasoningAccumulatorRef.
  cbn [V1.messages V1.isLoading V1.answerMessageIndexRef V1.alreadyCreatedRef].
  rewrite insert_last. reflexivity.
Qed.

End V1_properties.

(** ** Streams of reasoning deltas and content deltas *)

Lemma reasoning_lines_summary P rlines rs :
  Forall2 (reasoning_line P) rlines rs ->
  Forall (plain_line P) rlines
  /\ lines_content P rlines = []
  /\ lines_reasoning P rlines = concat rs.
Proof.
  induction 1 as [|l r ls rs' [Hs Hd] _ (IH1 & IH2 & IH3)].
  - repeat split. constructor.
  - repeat split.
    + constructor; [|exact IH1]. split; [exact Hs|].
      unfold line_finish. rewrite Hd. reflexivity.
    + unfold lines_content in *. simpl. unfold line_content at 1.
      rewrite Hd. exact IH2.
    + unfold lines_reasoning in *. simpl. unfold line_reasoning at 1.
      rewrite Hd, IH3. reflexivity.
Qed.

Lemma content_lines_summary P clines cs :
  Forall2 (content_line P) clines cs ->
  Forall (plain_line P) clines
  /\ lines_content P clines = cs
  /\ lines_reasoning P clines = [].
Proof.
  induction 1 as [|l c ls cs' [Hs Hd] _ (IH1 & IH2 & IH3)].
  - repeat split. constructor.
  - repeat split.
    + constructor; [|exact IH1]. split; [exact Hs|].
      unfold line_finish. rewrite Hd. reflexivity.
    + unfold lines_content in *. simpl. unfold line_content at 1.
      rewrite Hd, IH2. reflexivity.
    + unfold lines_reasoning in *. simpl. unfold line_reasoning at 1.
      rewrite Hd. exact IH3.
Qed.

Lemma finish_line_summary P fline :
  finish_line P fline ->
  is_sentinel fline = false /\ line_finish P fline = true
  /\ line_content P fline = [] /\ line_reasoning P fline = [].
Proof.
  intros [Hs Hd]. unfold line_finish, line_content, line_reasoning.
  destruct Hd as [-> | ->]; repeat split; assumption.
Qed.

(** C2. A stream of reasoning-only deltas, then content deltas (at least
    one), then an event with a [finish_reason], then the sentinel, spread
    over the chunks in any way: the turn adds the user's message and
    exactly one answer message, complete, whose content is the content
    deltas concatenated in order and whose reasoning is the cleaned
    concatenation of the reasoning deltas. *)
Theorem answer_assembled_from_stream
    (JSON_parse : jsstring -> option JSON)
    (st : V1.State) (prompt : jsstring) (status : N)
    (chunks rlines rs clines cs : list jsstring) (fline dline : jsstring)
    (Hreasoning : Forall2 (reasoning_line JSON_parse) rlines rs)
    (Hcontent : Forall2 (content_line JSON_parse) clines cs)
    (Hsome : cs <> [])
    (Hfinish : finish_line JSON_parse fline)
    (Hdone : is_sentinel dline = true)
    (Hstream :
       concat (map chunk_lines chunks) = rlines ++ clines ++ [fline; dline]) :
  let final :=
    (V1.handleSend JSON_parse st prompt
       (Resolved (mkResponse true status (Some (map Chunk chunks))))).1 in
  V1.messages final =
    V1.messages st
      ++ [user_message prompt;
          complete_answer (concat cs) (cleanReasoningChain (concat rs))]
  /\ V1.isLoading final = false.
Proof.
  destruct (reasoning_lines_summary _ _ _ Hreasoning) as (Pr & Cr & Rr).
  destruct (content_lines_summary _ _ _ Hcontent) as (Pc & Cc & Rc).
  destruct (finish_line_summary _ _ Hfinish) as (Fs & Ff & Fc & Fr).
  assert (HA : Forall (plain_line JSON_parse) (rlines ++ clines))
    by (apply Forall_app; split; assumption).
  assert (Hcat : concat (map chunk_lines chunks)
                 = (rlines ++ clines) ++ [fline] ++ [dline])
    by (rewrite Hstream, <- app_assoc; reflexivity).
  destruct (read_loop_cut JSON_parse chunks
              (V1.messages st ++ [user_message prompt]) [] []
              (rlines ++ clines) [fline] dline HA
              (or_intror (ex_intro _ fline (conj eq_refl (conj Fs Ff))))
              Hdone Hcat) as [log Hlog].
  assert (Ec : lines_content JSON_parse ((rlines ++ clines) ++ [fline]) = cs).
  { rewrite !lines_content_app, Cr, Cc. unfold lines_content at 1. simpl.
    rewrite Fc. simpl. apply app_nil_r. }
  assert (Er : lines_reasoning JSON_parse ((rlines ++ clines) ++ [fline])
               = concat rs).
  { rewrite !lines_reasoning_app, Rr, Rc. unfold lines_reasoning at 1. simpl.
    rewrite Fr. simpl. rewrite !app_nil_r. reflexivity. }
  rewrite Ec, Er in Hlog. cbn [app] in Hlog.
  unfold V1.handleSend, V1.try_block. rewrite start_turn_turn_state.
  cbn [ok body negb]. rewrite Hlog, finalizeMessage_turn_state.
  destruct cs as [|c0 cs']; [contradiction|].
  cbn. rewrite <- app_assoc. split; reflexivity.
Qed.

(** ** A turn without any content delta *)

Lemma reasoning_only_v1 JSON_parse st prompt status chunks rlines rs dline :
  Forall2 (reasoning_line JSON_parse) rlines rs ->
  is_sentinel dline = true ->
  concat (map chunk_lines chunks) = rlines ++ [dline] ->
  exists log,
    V1.handleSend JSON_parse st prompt
      (Resolved (mkResponse true status (Some (map Chunk chunks)))) =
    (V1.mkState (V1.messages st ++ [user_message prompt]) false (-1) false [],
     log).
Proof.
  intros Hr Hd Hcat.
  destruct (reasoning_lines_summary _ _ _ Hr) as (Pr & Cr & Rr).
  destruct (read_loop_cut JSON_parse chunks
              (V1.messages st ++ [user_message prompt]) [] []
              rlines [] dline Pr (or_introl eq_refl) Hd Hcat) as [log Hlog].
  rewrite app_nil_r, Cr in Hlog.
  unfold V1.handleSend, V1.try_block. rewrite start_turn_turn_state.
  cbn [ok body negb]. rewrite Hlog, finalizeMessage_turn_state.
  eexists. reflexivity.
Qed.

(** ** The states of a turn *)

Lemma turn_reaches_turn_state JSON_parse st0 prompt lines st :
  turn_reaches JSON_parse st0 prompt lines st ->
  let seen := List.filter (fun l => negb (is_sentinel l)) lines in
  st = turn_state (V1.messages st0 ++ [user_message prompt])
         (lines_content JSON_parse seen) (lines_reasoning JSON_parse seen).
Proof.
  induction 1 as [|lines st finished line _ IH]; cbv zeta in *.
  - apply start_turn_turn_state.
  - rewrite List.filter_app. simpl List.filter.
    destruct (is_sentinel line) eqn:Hs; simpl negb; cbv iota.
    + rewrite (process_line_sentinel _ _ _ _ Hs), app_nil_r. exact IH.
    + rewrite IH at 1. rewrite (process_line_turn_state _ _ _ _ _ _ Hs).
      rewrite lines_content_app, lines_reasoning_app.
      unfold lines_content at 3, lines_reasoning at 3. simpl.
      rewrite !app_nil_r. reflexivity.
Qed.

(** C5, amended.  In every state of a turn, the messages that the turn has
    added after the user's message are none as long as no content delta
    has arrived, and from the first content delta on exactly one open
    answer message, whose content is the content deltas received so far
    in order. *)
Theorem one_answer_message_per_turn
    (JSON_parse : jsstring -> option JSON)
    (st0 : V1.State) (prompt : jsstring) (lines : list jsstring)
    (st : V1.State)
    (Hreach : turn_reaches JSON_parse st0 prompt lines st) :
  let cs :=
    lines_content JSON_parse
      (List.filter (fun l => negb (is_sentinel l)) lines) in
  V1.messages st =
    V1.messages st0 ++ user_message prompt
      :: match cs with
         | [] => []
         | _ => [open_answer (concat cs)]
         end.
Proof.
  cbv zeta. rewrite (turn_reaches_turn_state _ _ _ _ _ Hreach) at 1.
  destruct (lines_content _ _); simpl; [reflexivity|].
  rewrite <- app_assoc. reflexivity.
Qed.

(** ** A malformed line *)

Lemma process_line_malformed JSON_parse st finished bad :
  malformed_line JSON_parse bad ->
  V1.process_line JSON_parse st finished bad =
    (st, finished, Next, [ParseCall (strip_prefix bad); ConsoleError]).
Proof.
  intros [Hs Hp]. unfold V1.process_line. rewrite Hs, Hp. reflexivity.
Qed.

Lemma process_lines_skip JSON_parse bad pre post :
  malformed_line JSON_parse bad ->
  forall st finished,
    (V1.process_lines JSON_parse st finished (pre ++ bad :: post)).1 =
    (V1.process_lines JSON_parse st finished (pre ++ post)).1.
Proof.
  intros Hbad. induction pre as [|x pre IH]; intros st finished; simpl.
  - rewrite (process_line_malformed _ _ _ _ Hbad).
    destruct (V1.process_lines _ st finished post) as [[st' f'] log'].
    reflexivity.
  - destruct (V1.process_line _ st finished x) as [[[st' f'] [|]] log];
      [|reflexivity].
    specialize (IH st' f').
    destruct (V1.process_lines _ st' f' (pre ++ bad :: post))
      as [[st1 f1] log1].
    destruct (V1.process_lines _ st' f' (pre ++ post)) as [[st2 f2] log2].
    exact IH.
Qed.

Lemma read_loop_skip JSON_parse bad pre post c c' s1 s2 :
  malformed_line JSON_parse bad ->
  chunk_lines c = pre ++ bad :: post ->
  chunk_lines c' = pre ++ post ->
  forall st finished,
    (V1.read_loop JSON_parse st finished (s1 ++ Chunk c :: s2)).1 =
    (V1.read_loop JSON_parse st finished (s1 ++ Chunk c' :: s2)).1.
Proof.
  intros Hbad Hc Hc'. induction s1 as [|r s1 IH]; intros st finished.
  - simpl. rewrite Hc, Hc'.
    pose proof (process_lines_skip _ _ pre post Hbad st finished) as H.
    destruct (V1.process_lines _ st finished (pre ++ bad :: post))
      as [[st1 f1] log1].
    destruct (V1.process_lines _ st finished (pre ++ post))
      as [[st2 f2] log2].
    simpl in H. injection H as -> ->.
    destruct f2; [reflexivity|].
    destruct (V1.read_loop _ st2 false s2) as [[st3 e3] log3]. reflexivity.
  - destruct r as [text|e]; [|reflexivity]. simpl.
    destruct (V1.process_lines _ st finished (chunk_lines text))
      as [[st1 f1] log1].
    destruct f1; [reflexivity|].
    specialize (IH st1 false).
    destruct (V1.read_loop _ st1 false (s1 ++ Chunk c :: s2))
      as [[st2 e2] log2].
    destruct (V1.read_loop _ st1 false (s1 ++ Chunk c' :: s2))
      as [[st3 e3] log3].
    simpl in IH. injection IH as -> ->. reflexivity.
Qed.

(** C6. On a line on which [JSON.parse] throws, the loop logs the error
    and goes on with the next line, the state and the flag [finished]
    unchanged; and a turn over a stream that holds such a line ends in
    the same state as the turn over the stream without it. *)
Theorem malformed_line_skipped
    (JSON_parse : jsstring -> option JSON)
    (st : V1.State) (prompt : jsstring) (status : N)
    (s1 s2 : list ReadResult) (c c' : jsstring)
    (pre post : list jsstring) (bad : jsstring)
    (Hbad : malformed_line JSON_parse bad)
    (Hwith : chunk_lines c = pre ++ bad :: post)
    (Hwithout : chunk_lines c' = pre ++ post) :
  (forall st' finished,
     V1.process_line JSON_parse st' finished bad =
       (st', finished, Next, [ParseCall (strip_prefix bad); ConsoleError]))
  /\ (V1.handleSend JSON_parse st prompt
        (Resolved (mkResponse true status (Some (s1 ++ Chunk c :: s2))))).1 =
     (V1.handleSend JSON_parse st prompt
        (Resolved (mkResponse true status (Some (s1 ++ Chunk c' :: s2))))).1.
Proof.
  split; [intros; apply process_line_malformed, Hbad|].
  unfold V1.handleSend, V1.try_block. cbn [ok body negb].
  pose proof (read_loop_skip _ _ _ _ _ _ s1 s2 Hbad Hwith Hwithout
                (V1.start_turn st prompt) false) as H.
  destruct (V1.read_loop _ _ false (s1 ++ Chunk c :: s2)) as [[st1 e1] log1].
  destruct (V1.read_loop _ _ false (s1 ++ Chunk c' :: s2)) as [[st2 e2] log2].
  simpl in H. injection H as -> ->. destruct e2; reflexivity.
Qed.

(** ** Transport failures *)

Lemma read_loop_then_fails JSON_parse chunks e rest :
  forall st finished mid log,
    V1.read_loop JSON_parse st finished (map Chunk chunks)
      = (mid, StreamDone, log) ->
    V1.read_loop JSON_parse st finished
        (map Chunk chunks ++ ReadFails e :: rest)
      = (mid, ReadThrew e, log).
Proof.
  induction chunks as [|c chunks IH]; intros st finished mid log H.
  - simpl in *. injection H as <- <-. reflexivity.
  - simpl in *.
    destruct (V1.process_lines _ st finished (chunk_lines c))
      as [[st1 f1] log1].
    destruct f1; [discriminate|].
    destruct (V1.read_loop _ st1 false (map Chunk chunks))
      as [[st2 e2] log2] eqn:E.
    injection H as <- -> <-.
    rewrite (IH _ _ _ _ E). reflexivity.
Qed.

(** C7. A transport failure aborts the turn.  When the request is
    rejected, or the response is not ok, the turn adds the user's message
    and one error message.  When a read of the stream throws, one error
    message is added to the list as the lines read so far have left it,
    so that an answer message in progress stays as it is.  The error
    message is not a user message and its content starts with "Error: ";
    the loading flag ends false. *)
Theorem transport_failure_aborts_turn
    (JSON_parse : jsstring -> option JSON)
    (st : V1.State) (prompt : jsstring) (e : Thrown) (status : N)
    (anybody : option (list ReadResult))
    (chunks : list jsstring) (rest : list ReadResult)
    (mid : V1.State) (log : list Effect)
    (Hread : V1.read_loop JSON_parse (V1.start_turn st prompt) false
               (map Chunk chunks) = (mid, StreamDone, log)) :
  let rejected := (V1.handleSend JSON_parse st prompt (Rejected e)).1 in
  let refused :=
    (V1.handleSend JSON_parse st prompt
       (Resolved (mkResponse false status anybody))).1 in
  let broken :=
    (V1.handleSend JSON_parse st prompt
       (Resolved (mkResponse true status
                    (Some (map Chunk chunks ++ ReadFails e :: rest))))).1 in
  (V1.messages rejected =
     V1.messages st ++ [user_message prompt; error_message e]
   /\ V1.isLoading rejected = false)
  /\ (V1.messages refused =
        V1.messages st
          ++ [user_message prompt; error_message (http_error status)]
      /\ V1.isLoading refused = false)
  /\ (V1.messages broken = V1.messages mid ++ [error_message e]
      /\ V1.isLoading broken = false)
  /\ (forall err,
        isUser (error_message err) = false
        /\ startsWith (content (error_message err)) (js "Error: ") = true).
Proof.
  cbv zeta. split; [|split; [|split]].
  - unfold V1.handleSend. simpl. rewrite <- app_assoc. split; reflexivity.
  - unfold V1.handleSend. simpl. rewrite <- app_assoc. split; reflexivity.
  - unfold V1.handleSend, V1.try_block. cbn [ok body negb].
    rewrite (read_loop_then_fails _ _ e rest _ _ _ _ Hread).
    split; reflexivity.
  - intros err. split; [reflexivity|]. destruct err; vm_compute; reflexivity.
Qed.

(** ** The second version *)

Lemma truthy_non_null v : truthy v = true -> non_null (Some v) = Some v.
Proof. destruct v; simpl; congruence. Qed.

Lemma decode_v1_v2 parsed finish rc c :
  V1.decode parsed = V1.Delta finish rc c -> V2.decode parsed = V2.Delta rc c.
Proof.
  unfold V1.decode, V2.decode. intros H.
  destruct parsed as [data|]; [|discriminate].
  assert (Hmain :
    match index0 (get_field data (js "choices")) with
    | None => V1.NoChoice
    | Some choice =>
        if negb (truthy choice) then V1.NoChoice
        else
          let finish := truthy_opt (get_field choice (js "finish_reason")) in
          match get_field choice (js "delta") with
          | None => V1.NoDelta finish
          | Some delta =>
              if negb (truthy delta) then V1.NoDelta finish
              else
                V1.Delta finish
                  (non_null (get_field delta (js "reasoning_content")))
                  (non_null (get_field delta (js "content")))
          end
    end = V1.Delta finish rc c ->
    match non_null (index0 (get_field data (js "choices"))) with
    | None => V2.Delta None None
    | Some choice =>
        match non_null (get_field choice (js "delta")) with
        | None => V2.Delta None None
        | Some delta =>
            V2.Delta (non_null (get_field delta (js "reasoning_content")))
              (non_null (get_field delta (js "content")))
        end
    end = V2.Delta rc c).
  { clear H. intros H.
    destruct (index0 _) as [choice|]; [|discriminate].
    destruct (truthy choice) eqn:Hc; [|discriminate]. simpl in H.
    rewrite (truthy_non_null _ Hc).
    destruct (get_field choice (js "delta")) as [delta|]; [|discriminate].
    destruct (truthy delta) eqn:Hd; [|discriminate]. simpl in H.
    rewrite (truthy_non_null _ Hd). congruence. }
  destruct data; try discriminate; apply Hmain, H.
Qed.

Section V2_properties.

Variable JSON_parse : jsstring -> option JSON.
Variable capturedReasoning capturedResponse : jsstring.

Local Abbreviation process_line2 :=
  (V2.process_line JSON_parse capturedReasoning).
Local Abbreviation process_lines2 :=
  (V2.process_lines JSON_parse capturedReasoning).
Local Abbreviation read_loop2 :=
  (V2.read_loop JSON_parse capturedReasoning).

Lemma process_line2_sentinel st loc line :
  is_sentinel line = true -> process_line2 st loc line = (st, loc, []).
Proof. intros H. unfold V2.process_line. rewrite H. reflexivity. Qed.

Lemma process_lines2_skip_sentinel d pre post :
  is_sentinel d = true ->
  forall st loc,
    process_lines2 st loc (pre ++ d :: post) =
    process_lines2 st loc (pre ++ post).
Proof.
  intros Hd. induction pre as [|x pre IH]; intros st loc; simpl.
  - rewrite (process_line2_sentinel _ _ _ Hd).
    destruct (process_lines2 st loc post) as [[st' loc'] log']. reflexivity.
  - destruct (process_line2 st loc x) as [[st' loc'] log].
    rewrite IH. reflexivity.
Qed.

Lemma process_line2_reasoning st loc line r :
  reasoning_line JSON_parse line r ->
  process_line2 st loc line =
    (V2.set_currentReasoning st (V2.currentReasoning st ++ r), loc,
     [ParseCall (strip_prefix line)]).
Proof.
  intros [Hs Hd]. unfold V2.process_line. rewrite Hs.
  unfold decoded_line in Hd. rewrite (decode_v1_v2 _ _ _ _ Hd). reflexivity.
Qed.

(** Lines that are reasoning deltas or the sentinel change only
    [currentReasoning]. *)
Lemma process_lines2_reasoning lines :
  Forall (fun l => is_sentinel l = true
                   \/ exists r, reasoning_line JSON_parse l r) lines ->
  forall ms b cr cp loc,
  exists cr' log,
    process_lines2 (V2.mkState ms b cr cp) loc lines =
      (V2.mkState ms b cr' cp, loc, log).
Proof.
  induction 1 as [|l lines Hl _ IH]; intros ms b cr cp loc; simpl.
  - eauto.
  - destruct Hl as [Hs|[r Hr]].
    + rewrite (process_line2_sentinel _ _ _ Hs).
      destruct (IH ms b cr cp loc) as (cr' & log & ->). eauto.
    + rewrite (process_line2_reasoning _ _ _ _ Hr).
      unfold V2.set_currentReasoning. simpl.
      destruct (IH ms b (cr ++ r) cp loc) as (cr' & log & ->). eauto.
Qed.

Lemma read_loop2_reasoning chunks :
  Forall (fun l => is_sentinel l = true
                   \/ exists r, reasoning_line JSON_parse l r)
    (concat (map chunk_lines chunks)) ->
  forall ms b cr cp loc,
  exists cr' log,
    read_loop2 (V2.mkState ms b cr cp) loc (map Chunk chunks) =
      (V2.mkState ms b cr' cp, loc, StreamDone, log).
Proof.
  induction chunks as [|c chunks IH]; intros H ms b cr cp loc; simpl.
  - eauto.
  - simpl in H. apply Forall_app in H as [Hc Hrest].
    destruct (process_lines2_reasoning _ Hc ms b cr cp loc)
      as (cr1 & log1 & ->).
    destruct (IH Hrest ms b cr1 cp loc) as (cr2 & log2 & ->). eauto.
Qed.

End V2_properties.

Lemma reasoning_only_v2 JSON_parse st message status chunks rlines rs dline :
  Forall2 (reasoning_line JSON_parse) rlines rs ->
  is_sentinel dline = true ->
  concat (map chunk_lines chunks) = rlines ++ [dline] ->
  exists cr log,
    V2.handleSend JSON_parse st message
      (Resolved (mkResponse true status (Some (map Chunk chunks)))) =
    (V2.mkState
       (V2.messages st
          ++ [user_message message;
              mkMessage (V2.currentResponse st) false None (Some true)
                (Some false)])
       false cr [],
     log).
Proof.
  intros Hr Hd Hcat.
  assert (Hall : Forall (fun l => is_sentinel l = true
                   \/ exists r, reasoning_line JSON_parse l r)
                   (concat (map chunk_lines chunks))).
  { rewrite Hcat. apply Forall_app. split.
    - clear Hcat.
      induction Hr as [|l r ls rs' Hl _ IH]; constructor; [right|]; eauto.
    - constructor; [left; exact Hd|constructor]. }
  unfold V2.handleSend, V2.try_block, V2.start_turn. cbn [ok body negb].
  unfold V2.set_currentResponse, V2.set_currentReasoning, V2.set_isLoading,
    V2.set_messages. simpl.
  destruct (read_loop2_reasoning JSON_parse (V2.currentReasoning st) chunks
              Hall (V2.messages st ++ [user_message message]) true [] []
              (V2.mkLocals false (-1))) as (cr & log & ->).
  exists cr, log. unfold V2.finish_turn. simpl.
  rewrite <- app_assoc. reflexivity.
Qed.

(** C8, amended.  A stream of reasoning deltas only, then the sentinel.
    The first version ends the turn with the user's message as the only
    new message and with the accumulated reasoning dropped.  The second
    version adds, after the user's message, one complete message without
    reasoning, whose content is the value of [currentResponse] at the
    start of the call. *)
Theorem reasoning_only_turn
    (JSON_parse : jsstring -> option JSON)
    (st1 : V1.State) (st2 : V2.State) (prompt : jsstring) (status : N)
    (chunks rlines rs : list jsstring) (dline : jsstring)
    (Hreasoning : Forall2 (reasoning_line JSON_parse) rlines rs)
    (Hdone : is_sentinel dline = true)
    (Hstream : concat (map chunk_lines chunks) = rlines ++ [dline]) :
  let fetch := Resolved (mkResponse true status (Some (map Chunk chunks))) in
  (V1.handleSend JSON_parse st1 prompt fetch).1 =
    V1.mkState (V1.messages st1 ++ [user_message prompt]) false (-1) false []
  /\ V2.messages (V2.handleSend JSON_parse st2 prompt fetch).1 =
       V2.messages st2
         ++ [user_message prompt;
             mkMessage (V2.currentResponse st2) false None (Some true)
               (Some false)]
  /\ V2.isLoading (V2.handleSend JSON_parse st2 prompt fetch).1 = false.
Proof.
  cbv zeta.
  destruct (reasoning_only_v1 JSON_parse st1 prompt status _ _ _ _
              Hreasoning Hdone Hstream) as [log1 ->].
  destruct (reasoning_only_v2 JSON_parse st2 prompt status _ _ _ _
              Hreasoning Hdone Hstream) as (cr & log2 & ->).
  repeat split.
Qed.

(** ** The sentinel line *)

Lemma process_line_log JSON_parse st finished line :
  is_sentinel line = false ->
  exists st' finished',
    V1.process_line JSON_parse st finished line =
      (st', finished', Next, line_log JSON_parse line).
Proof.
  intros H. unfold V1.process_line, line_log, decoded_line. rewrite H.
  destruct (V1.decode _); eauto.
Qed.

Lemma process_lines_log JSON_parse lines :
  Forall (fun l => is_sentinel l = false) lines ->
  forall st finished,
    (V1.process_lines JSON_parse st finished lines).2 =
      concat (map (line_log JSON_parse) lines).
Proof.
  induction 1 as [|l lines Hl _ IH]; intros st finished; simpl.
  - reflexivity.
  - destruct (process_line_log JSON_parse st finished l Hl)
      as (st' & f' & ->).
    specialize (IH st' f').
    destruct (V1.process_lines _ st' f' lines) as [[st1 f1] log1].
    simpl in *. rewrite IH. reflexivity.
Qed.

(** C3, amended.  A chunk whose lines are [pre], then a line that trims
    to the sentinel, then [post].  In the first version the loop ends
    there: the state is the one that the lines of [pre] leave, the parser
    was called for the lines of [pre] only, and nothing more is read.  In
    the second version the sentinel line is passed over without a call of
    the parser, and the loop goes on with the lines of [post] and with
    the rest of the stream. *)
Theorem sentinel_line_handling
    (JSON_parse : jsstring -> option JSON)
    (st1 : V1.State) (st2 : V2.State) (loc : V2.Locals)
    (capturedReasoning : jsstring)
    (c : jsstring) (rest : list ReadResult)
    (pre post : list jsstring) (d : jsstring)
    (Hd : is_sentinel d = true)
    (Hpre : Forall (fun l => is_sentinel l = false) pre)
    (Hc : chunk_lines c = pre ++ d :: post) :
  V1.read_loop JSON_parse st1 false (Chunk c :: rest) =
    ((V1.process_lines JSON_parse st1 false pre).1.1, Finished,
     ReadCall :: concat (map (line_log JSON_parse) pre))
  /\ V2.process_line JSON_parse capturedReasoning st2 loc d = (st2, loc, [])
  /\ V2.read_loop JSON_parse capturedReasoning st2 loc (Chunk c :: rest) =
       (let '(s, l, log) :=
          V2.process_lines JSON_parse capturedReasoning st2 loc
            (pre ++ post) in
        let '(s, l, ending, log') :=
          V2.read_loop JSON_parse capturedReasoning s l rest in
        (s, l, ending, ReadCall :: log ++ log')).
Proof.
  split; [|split].
  - simpl. rewrite Hc, (process_lines_app _ _ _ _ _ Hpre).
    pose proof (process_lines_log JSON_parse pre Hpre st1 false) as Hlog.
    destruct (V1.process_lines JSON_parse st1 false pre) as [[s f] log].
    simpl in Hlog. subst log. simpl.
    rewrite (process_line_sentinel _ _ _ _ Hd), app_nil_r. reflexivity.
  - apply process_line2_sentinel, Hd.
  - simpl. rewrite Hc, (process_lines2_skip_sentinel _ _ _ _ _ Hd).
    reflexivity.
Qed.

(** ** Stripping the prefix *)

Lemma replace_first_none pat rep s :
  includes s pat = false -> replace_first pat rep s = s.
Proof.
  induction s as [|c s IH]; simpl; intros H;
    apply orb_false_iff in H as [H1 H2]; rewrite H1; [reflexivity|].
  rewrite (IH H2). reflexivity.
Qed.

Lemma replace_first_at pat rep n : forall s,
  first_occurrence_at s pat n ->
  replace_first pat rep s = take n s ++ rep ++ drop (n + length pat) s.
Proof.
  induction n as [|n IH]; intros s [Hat Hbefore].
  - rewrite drop_0 in Hat. destruct s; simpl; rewrite Hat; reflexivity.
  - pose proof (Hbefore 0%nat ltac:(lia)) as H0. rewrite drop_0 in H0.
    destruct s as [|c s].
    + simpl in Hat. congruence.
    + simpl. rewrite H0. f_equal. apply IH. split; [exact Hat|].
      intros k Hk. apply (Hbefore (S k)). lia.
Qed.

(** C10. [strip_prefix] removes the first occurrence of "data: ", wherever
    it starts in the line, and nothing else; a line without "data: " is
    left as it is, and when it is not the sentinel both versions pass it
    unchanged to the parser. *)
Theorem strip_prefix_first_occurrence
    (JSON_parse : jsstring -> option JSON)
    (st1 : V1.State) (finished : bool)
    (st2 : V2.State) (loc : V2.Locals) (capturedReasoning : jsstring)
    (line : jsstring) (n : nat) (other : jsstring)
    (Hat : first_occurrence_at line DATA_PREFIX n)
    (Hnone : includes other DATA_PREFIX = false)
    (Hother : is_sentinel other = false) :
  strip_prefix line = take n line ++ drop (n + length DATA_PREFIX) line
  /\ strip_prefix other = other
  /\ head (V1.process_line JSON_parse st1 finished other).2
       = Some (ParseCall other)
  /\ head (V2.process_line JSON_parse capturedReasoning st2 loc other).2
       = Some (ParseCall other).
Proof.
  assert (E : strip_prefix other = other)
    by (apply replace_first_none, Hnone).
  split; [|split; [exact E|split]].
  - unfold strip_prefix. rewrite (replace_first_at _ [] n line Hat).
    reflexivity.
  - unfold V1.process_line. rewrite Hother, E.
    destruct (V1.decode _); reflexivity.
  - unfold V2.process_line. rewrite Hother, E.
    destruct (V2.decode _) as [|rc cc]; [reflexivity|].
    destruct (V2.apply_delta _ _ _ _ _). reflexivity.
Qed.

(** C1.  On "resolu resolução" the cleaner returns its input: "resolu" is
    a prefix, not a suffix, of "resolução", so the fusion loop keeps both
    tokens, where the comment above that loop gives "resolução" as the
    result for these two tokens. *)
Theorem clean_resolu_keeps_both_tokens :
  cleanReasoningChain (js "resolu " ++ resolucao) = js "resolu " ++ resolucao
  /\ cleanReasoningChain (js "resolu " ++ resolucao) <> resolucao
  /\ endsWith resolucao (js "resolu") = false
  /\ endsWith (js "resolu") resolucao = false.
Proof. vm_compute. repeat split; discriminate. Qed.

(** The fusion loop on two tokens of which one is a suffix of the other:
    the longer one stays and no entry is added. *)
Lemma fuse_step_suffix fused l t :
  t `suffix_of` l \/ l `suffix_of` t ->
  fuse_step (fused ++ [l]) t =
    fused ++ [if (length l <? length t)%nat then t else l].
Proof.
  intros H. rewrite fuse_step_snoc.
  assert (E : endsWith l t || endsWith t l = true).
  { apply orb_true_iff. destruct H as [H|H]; [left|right];
      apply endsWith_suffix, H. }
  rewrite E. destruct (_ <? _)%nat; reflexivity.
Qed.

(** ** The theorems on sample streams *)

Ltac evaluate := vm_compute; reflexivity.

Lemma sample_reasoning_lines :
  Forall2 (reasoning_line sample_parse) [line_r1; line_r2]
    [js "Wait... "; js "what?? what??"].
Proof. repeat constructor; evaluate. Defined.

Lemma sample_content_lines :
  Forall2 (content_line sample_parse) [line_c1; line_c2] [js "Hel"; js "lo"].
Proof. repeat constructor; evaluate. Defined.

Lemma sample_finish_line : finish_line sample_parse line_stop.
Proof. split; [evaluate|right; evaluate]. Defined.

Lemma sample_malformed_line : malformed_line sample_parse bad_line.
Proof. split; evaluate. Defined.

Lemma answer_assembled_witness :
  let final :=
    (V1.handleSend sample_parse empty_state (js "hi")
       (Resolved (mkResponse true 200 (Some (map Chunk sample_chunks))))).1 in
  V1.messages final =
    V1.messages empty_state
      ++ [user_message (js "hi");
          complete_answer (concat [js "Hel"; js "lo"])
            (cleanReasoningChain (concat [js "Wait... "; js "what?? what??"]))]
  /\ V1.isLoading final = false.
Proof.
  apply (answer_assembled_from_stream sample_parse empty_state (js "hi") 200
           sample_chunks [line_r1; line_r2] [js "Wait... "; js "what?? what??"]
           [line_c1; line_c2] [js "Hel"; js "lo"] line_stop SENTINEL).
  - exact sample_reasoning_lines.
  - exact sample_content_lines.
  - discriminate.
  - exact sample_finish_line.
  - evaluate.
  - evaluate.
Defined.

Example answer_assembled_sample :
  V1.messages
    (V1.handleSend sample_parse empty_state (js "hi")
       (Resolved (mkResponse true 200 (Some (map Chunk sample_chunks))))).1 =
  [user_message (js "hi"); complete_answer (js "Hello") (js "Wait. what?")].
Proof. evaluate. Qed.

Lemma reasoning_only_witness :
  let fetch :=
    Resolved (mkResponse true 200 (Some (map Chunk reasoning_only_chunks))) in
  (V1.handleSend sample_parse empty_state (js "hi") fetch).1 =
    V1.mkState (V1.messages empty_state ++ [user_message (js "hi")])
      false (-1) false []
  /\ V2.messages (V2.handleSend sample_parse empty_state2 (js "hi") fetch).1 =
       V2.messages empty_state2
         ++ [user_message (js "hi");
             mkMessage (V2.currentResponse empty_state2) false None
               (Some true) (Some false)]
  /\ V2.isLoading (V2.handleSend sample_parse empty_state2 (js "hi") fetch).1
     = false.
Proof.
  apply (reasoning_only_turn sample_parse empty_state empty_state2 (js "hi")
           200 reasoning_only_chunks [line_r1; line_r2]
           [js "Wait... "; js "what?? what??"] SENTINEL).
  - exact sample_reasoning_lines.
  - evaluate.
  - evaluate.
Defined.

(** C8, counterexample.  On a stream of reasoning deltas and the sentinel
    the second version adds a message after the user's one. *)
Lemma reasoning_only_second_version_adds_message :
  V2.messages
    (V2.handleSend sample_parse empty_state2 (js "hi")
       (ok_response (map Chunk reasoning_only_chunks))).1 =
  [user_message (js "hi"); mkMessage [] false None (Some true) (Some false)].
Proof. evaluate. Qed.

Lemma one_answer_message_witness :
  let lines := ([] ++ [line_c1]) ++ [line_c2] in
  let st :=
    (V1.process_line sample_parse
       (V1.process_line sample_parse (V1.start_turn empty_state (js "hi"))
          false line_c1).1.1.1 false line_c2).1.1.1 in
  turn_reaches sample_parse empty_state (js "hi") lines st
  /\ (let cs :=
        lines_content sample_parse
          (List.filter (fun l => negb (is_sentinel l)) lines) in
      V1.messages st =
        V1.messages empty_state ++ user_message (js "hi")
          :: match cs with
             | [] => []
             | _ => [open_answer (concat cs)]
             end).
Proof.
  assert (H : turn_reaches sample_parse empty_state (js "hi")
                (([] ++ [line_c1]) ++ [line_c2])
                (V1.process_line sample_parse
                   (V1.process_line sample_parse
                      (V1.start_turn empty_state (js "hi"))
                      false line_c1).1.1.1 false line_c2).1.1.1).
  { apply reaches_line, reaches_line, reaches_start. }
  split; [exact H|].
  exact (one_answer_message_per_turn sample_parse empty_state (js "hi") _ _ H).
Defined.

(** C5, counterexample.  After a turn whose stream broke in the middle of
    the answer, the next turn reaches a state in which the conversation
    list holds two open answer messages. *)
Lemma two_open_answers_after_broken_turn :
  exists st,
    turn_reaches sample_parse after_broken_turn (js "again")
      ([] ++ [line_c2]) st
    /\ List.filter is_open_answer (V1.messages st) =
         [open_answer (js "Hel"); open_answer (js "lo")].
Proof.
  eexists. split.
  - apply (reaches_line sample_parse after_broken_turn (js "again") []
             (V1.start_turn after_broken_turn (js "again")) false line_c2),
      reaches_start.
  - evaluate.
Qed.

Lemma malformed_line_witness :
  (forall st' finished,
     V1.process_line sample_parse st' finished bad_line =
       (st', finished, Next,
        [ParseCall (strip_prefix bad_line); ConsoleError]))
  /\ (V1.handleSend sample_parse empty_state (js "hi")
        (Resolved (mkResponse true 200
           (Some ([Chunk (nl line_r1)]
                  ++ Chunk (nl line_c1 ++ nl bad_line ++ nl line_c2)
                  :: [Chunk (nl line_stop ++ nl SENTINEL)]))))).1 =
     (V1.handleSend sample_parse empty_state (js "hi")
        (Resolved (mkResponse true 200
           (Some ([Chunk (nl line_r1)]
                  ++ Chunk (nl line_c1 ++ nl line_c2)
                  :: [Chunk (nl line_stop ++ nl SENTINEL)]))))).1.
Proof.
  apply (malformed_line_skipped sample_parse empty_state (js "hi") 200
           [Chunk (nl line_r1)] [Chunk (nl line_stop ++ nl SENTINEL)]
           (nl line_c1 ++ nl bad_line ++ nl line_c2) (nl line_c1 ++ nl line_c2)
           [line_c1] [line_c2] bad_line).
  - exact sample_malformed_line.
  - evaluate.
  - evaluate.
Defined.

Lemma transport_failure_witness :
  let e := ErrorObject (js "network error") in
  let chunks := [nl line_c1] in
  let run := V1.read_loop sample_parse (V1.start_turn empty_state (js "hi"))
               false (map Chunk chunks) in
  let broken :=
    (V1.handleSend sample_parse empty_state (js "hi")
       (Resolved (mkResponse true 200
                    (Some (map Chunk chunks ++ ReadFails e :: []))))).1 in
  V1.messages broken = V1.messages run.1.1 ++ [error_message e]
  /\ V1.isLoading broken = false.
Proof.
  cbv zeta.
  apply (transport_failure_aborts_turn sample_parse empty_state (js "hi")
           (ErrorObject (js "network error")) 200 None [nl line_c1] []
           (V1.read_loop sample_parse (V1.start_turn empty_state (js "hi"))
              false (map Chunk [nl line_c1])).1.1
           (V1.read_loop sample_parse (V1.start_turn empty_state (js "hi"))
              false (map Chunk [nl line_c1])).2).
  evaluate.
Defined.

Example transport_failure_sample :
  V1.messages after_broken_turn =
    [user_message (js "hi"); open_answer (js "Hel");
     error_message (ErrorObject (js "network error"))].
Proof. evaluate. Qed.

Lemma sentinel_line_witness :
  let c := nl line_c1 ++ nl SENTINEL ++ nl line_c2 in
  let loc := V2.mkLocals false (-1) in
  V1.read_loop sample_parse empty_state false (Chunk c :: [Chunk (nl line_c2)])
    = ((V1.process_lines sample_parse empty_state false [line_c1]).1.1,
       Finished, ReadCall :: concat (map (line_log sample_parse) [line_c1]))
  /\ V2.process_line sample_parse [] empty_state2 loc SENTINEL
     = (empty_state2, loc, [])
  /\ V2.read_loop sample_parse [] empty_state2 loc
       (Chunk c :: [Chunk (nl line_c2)]) =
       (let '(s, l, log) :=
          V2.process_lines sample_parse [] empty_state2 loc
            ([line_c1] ++ [line_c2]) in
        let '(s, l, ending, log') :=
          V2.read_loop sample_parse [] s l [Chunk (nl line_c2)] in
        (s, l, ending, ReadCall :: log ++ log')).
Proof.
  cbv zeta.
  apply (sentinel_line_handling sample_parse empty_state empty_state2
           (V2.mkLocals false (-1)) []
           (nl line_c1 ++ nl SENTINEL ++ nl line_c2) [Chunk (nl line_c2)]
           [line_c1] [line_c2] SENTINEL).
  - evaluate.
  - constructor; [evaluate|constructor].
  - evaluate.
Defined.

(** C3, counterexample.  In the second version the chunk after the one
    with the sentinel is read and its line is given to the parser. *)
Lemma sentinel_does_not_stop_second_version :
  (V2.handleSend sample_parse empty_state2 (js "hi")
     (ok_response [Chunk (nl SENTINEL); Chunk (nl line_c1)])).2 =
  [ReadCall; ReadCall; ParseCall (render (content_event "Hel")); ReadCall].
Proof. evaluate. Qed.

Lemma strip_prefix_witness :
  let line := js "event data: {} data: x" in
  let other := js "{}" in
  strip_prefix line = take 6 line ++ drop (6 + length DATA_PREFIX) line
  /\ strip_prefix other = other
  /\ head (V1.process_line sample_parse empty_state false other).2
       = Some (ParseCall other)
  /\ head (V2.process_line sample_parse [] empty_state2
             (V2.mkLocals false (-1)) other).2
       = Some (ParseCall other).
Proof.
  cbv zeta.
  apply (strip_prefix_first_occurrence sample_parse empty_state false
           empty_state2 (V2.mkLocals false (-1)) []
           (js "event data: {} data: x") 6 (js "{}")).
  - split; [evaluate|].
    intros k Hk. do 6 (destruct k as [|k]; [evaluate|]). lia.
  - evaluate.
  - evaluate.
Defined.

Example strip_prefix_sample :
  strip_prefix (js "event data: {} data: x") = js "event {} data: x".
Proof. evaluate. Qed.

(** * Part III: further properties of the code *)

(** ** The cleaner: blank input *)

Lemma collapse_runs_Forall (Q : N -> Prop) c s :
  Forall Q s -> Forall Q (collapse_runs c s).
Proof.
  induction 1 as [|x s Hx _ IH]; simpl; [constructor|].
  destruct (_ && _); [exact IH|constructor; assumption].
Qed.

Lemma collapse_runs_Exists (Q : N -> Prop) c s :
  Exists Q s -> Exists Q (collapse_runs c s).
Proof.
  induction s as [|x s IH]; intros H; [inversion H|]. simpl.
  destruct (_ && _) eqn:E.
  - apply IH. apply andb_true_iff in E as [Hx Hy].
    destruct s as [|y s]; [discriminate|].
    apply N.eqb_eq in Hx, Hy. subst x y.
    inversion H; subst; [left; assumption|assumption].
  - inversion H; subst; [left; assumption|right; auto].
Qed.

Lemma split_ws_from_all_ws b s :
  all_ws s -> Forall (fun p => p = []) (split_ws_from b s).
Proof.
  intros H. revert b. induction H as [|c s Hc _ IH]; intros b; simpl.
  - repeat constructor.
  - rewrite Hc. destruct b; [apply IH|constructor; [reflexivity|apply IH]].
Qed.

Lemma tokenize_all_ws s : all_ws s -> tokenize s = [].
Proof.
  intros H. unfold tokenize, split_ws.
  pose proof (split_ws_from_all_ws false s H) as Hp.
  induction Hp as [|p ps -> _ IH]; [reflexivity|exact IH].
Qed.

Lemma split_ws_from_nonblank b s :
  Exists (fun c => is_ws c = false) s ->
  Exists (fun p => p <> []) (split_ws_from b s).
Proof.
  revert b. induction s as [|c s IH]; intros b H; [inversion H|]. simpl.
  destruct (is_ws c) eqn:Hc.
  - assert (Hs : Exists (fun c => is_ws c = false) s)
      by (inversion H; subst; [congruence|assumption]).
    destruct b; [apply IH, Hs|right; apply IH, Hs].
  - destruct (split_ws_from false s); left; discriminate.
Qed.

Lemma tokenize_nonblank s :
  Exists (fun c => is_ws c = false) s -> tokenize s <> [].
Proof.
  intros H. unfold tokenize, split_ws.
  pose proof (split_ws_from_nonblank false s H) as He.
  pose proof (split_ws_from_ws_free false s) as Hw.
  induction He as [p ps Hp|p ps _ IH]; simpl.
  - inversion Hw; subst. rewrite (trim_ws_free p) by assumption.
    destruct p; [contradiction|discriminate].
  - inversion Hw; subst. destruct (negb _); [discriminate|auto].
Qed.

Lemma dedup_step_nonnil acc t : dedup_step acc t <> [].
Proof.
  unfold dedup_step, last_token.
  destruct (last_cases acc) as [[-> ->]|(l & x & -> & ->)]; [discriminate|].
  destruct (str_eqb x t); intros H; apply app_eq_nil in H as [_ H];
    discriminate.
Qed.

Lemma fuse_step_nonnil acc t : fuse_step acc t <> [].
Proof.
  destruct (last_cases acc) as [[-> _]|(l & x & -> & _)]; [discriminate|].
  rewrite fuse_step_snoc.
  destruct (_ || _); [destruct (_ <? _)%nat|]; intros H;
    apply app_eq_nil in H as [_ H]; discriminate.
Qed.

Lemma fold_left_nonnil (step : list jsstring -> jsstring -> list jsstring) l :
  (forall acc t, step acc t <> []) ->
  forall acc, acc <> [] \/ l <> [] -> fold_left step l acc <> [].
Proof.
  intros Hstep. induction l as [|t l IH]; intros acc H; simpl.
  - destruct H as [H|H]; [exact H|contradiction].
  - apply IH. left. apply Hstep.
Qed.

Lemma fusedTokens_nonblank x :
  Exists (fun c => is_ws c = false) x -> fusedTokens x <> [].
Proof.
  intros H. unfold fusedTokens.
  apply (fold_left_nonnil fuse_step _ fuse_step_nonnil). right.
  apply (fold_left_nonnil dedup_step _ dedup_step_nonnil). right.
  apply tokenize_nonblank. do 2 apply collapse_runs_Exists. exact H.
Qed.

(** X1. The cleaner returns the empty string exactly on the texts that
    hold nothing but white space (the empty text among them). *)
Theorem clean_empty_iff_blank (x : jsstring) :
  cleanReasoningChain x = [] <-> all_ws x.
Proof.
  split.
  - intros Hclean. apply Forall_forall. intros c Hc.
    destruct (is_ws c) eqn:Hw; [reflexivity|]. exfalso.
    assert (He : Exists (fun c => is_ws c = false) x)
      by (apply Exists_exists; eauto).
    pose proof (fusedTokens_nonblank x He) as Hne.
    pose proof (fusedTokens_good x) as Hg.
    rewrite clean_join in Hclean.
    destruct (fusedTokens x) as [|t ts]; [contradiction|].
    inversion Hg as [|? ? [Ht _] _]; subst.
    exact (join_nonnil _ t ts Ht Hclean).
  - intros H. rewrite clean_join. unfold fusedTokens.
    rewrite tokenize_all_ws; [reflexivity|].
    do 2 apply collapse_runs_Forall. exact H.
Qed.

(** ** The cleaner only drops tokens *)

Lemma dedup_step_sublist acc t : dedup_step acc t `sublist_of` acc ++ [t].
Proof.
  unfold dedup_step. destruct (last_token acc) as [l|];
    [destruct (str_eqb l t)|]; try reflexivity.
  apply sublist_inserts_r. reflexivity.
Qed.

Lemma fuse_step_sublist acc t : fuse_step acc t `sublist_of` acc ++ [t].
Proof.
  destruct (last_cases acc) as [[-> _]|(l & x & -> & _)]; [reflexivity|].
  rewrite fuse_step_snoc.
  destruct (_ || _); [destruct (_ <? _)%nat|]; try reflexivity.
  - rewrite <- app_assoc. apply sublist_app; [reflexivity|].
    apply sublist_cons. reflexivity.
  - apply sublist_inserts_r. reflexivity.
Qed.

Lemma fold_left_sublist (step : list jsstring -> jsstring -> list jsstring) :
  (forall acc t, step acc t `sublist_of` acc ++ [t]) ->
  forall l acc, fold_left step l acc `sublist_of` acc ++ l.
Proof.
  intros Hstep. induction l as [|t l IH]; intros acc; simpl.
  - rewrite app_nil_r. reflexivity.
  - etransitivity; [apply IH|].
    change (t :: l) with ([t] ++ l). rewrite app_assoc.
    apply sublist_app; [apply Hstep|reflexivity].
Qed.

Lemma fusedTokens_sublist x :
  fusedTokens x
    `sublist_of` tokenize (collapse_runs QUESTION (collapse_runs DOT x)).
Proof.
  unfold fusedTokens.
  etransitivity; [apply (fold_left_sublist _ fuse_step_sublist)|].
  apply (fold_left_sublist _ dedup_step_sublist).
Qed.

(** X2. The cleaner never makes up or reorders a token: the tokens of its
    output are, in order, some of the tokens of the text in which the
    runs of [.] and [?] have been collapsed. *)
Theorem clean_tokens_sublist (x : jsstring) :
  tokenize (cleanReasoningChain x)
    `sublist_of` tokenize (collapse_runs QUESTION (collapse_runs DOT x)).
Proof. rewrite clean_tokens. apply fusedTokens_sublist. Qed.

(** ** The cleaner never lengthens the text *)

Lemma collapse_runs_length c s :
  (length (collapse_runs c s) <= length s)%nat.
Proof.
  induction s as [|x s IH]; simpl; [lia|].
  destruct (_ && _); simpl; lia.
Qed.

Lemma join_length c arr :
  length (join [c] arr) = pred (joined_length arr).
Proof.
  induction arr as [|t arr IH]; [reflexivity|].
  destruct arr as [|t2 arr]; [simpl; lia|].
  rewrite join_cons2, !length_app, IH. simpl. lia.
Qed.

Lemma joined_length_sublist l1 l2 :
  l1 `sublist_of` l2 -> (joined_length l1 <= joined_length l2)%nat.
Proof. induction 1; simpl; lia. Qed.

Lemma filter_sublist {A} (f : A -> bool) l : List.filter f l `sublist_of` l.
Proof.
  induction l as [|x l IH]; simpl; [reflexivity|].
  destruct (f x); [apply sublist_skip|apply sublist_cons]; exact IH.
Qed.

Lemma split_ws_from_joined_length b s :
  (joined_length (split_ws_from b s) <= S (length s))%nat.
Proof.
  revert b. induction s as [|c s IH]; intros b; simpl; [lia|].
  destruct (is_ws c).
  - destruct b; [specialize (IH true); lia|].
    specialize (IH true). simpl. lia.
  - specialize (IH false). destruct (split_ws_from false s); simpl in *; lia.
Qed.

Lemma tokenize_join_length s :
  (length (join (js " ") (tokenize s)) <= length s)%nat.
Proof.
  rewrite js_space, join_length.
  pose proof (joined_length_sublist _ _
                (filter_sublist (fun t => negb (str_eqb (trim t) []))
                   (split_ws s))) as H1.
  pose proof (split_ws_from_joined_length false s) as H2.
  unfold tokenize, split_ws in *. lia.
Qed.

(** X3. The output of the cleaner is never longer than its input. *)
Theorem clean_length (x : jsstring) :
  (length (cleanReasoningChain x) <= length x)%nat.
Proof.
  rewrite clean_join, js_space, join_length.
  pose proof (joined_length_sublist _ _ (fusedTokens_sublist x)) as H1.
  pose proof (tokenize_join_length
                (collapse_runs QUESTION (collapse_runs DOT x))) as H2.
  rewrite js_space, join_length in H2.
  pose proof (collapse_runs_length QUESTION (collapse_runs DOT x)) as H3.
  pose proof (collapse_runs_length DOT x) as H4.
  lia.
Qed.

(** ** The texts that the cleaner leaves alone *)

Lemma clean_no_double c x :
  c = DOT \/ c = QUESTION -> no_double c (cleanReasoningChain x).
Proof.
  intros Hc. rewrite clean_join. apply join_no_double.
  - destruct Hc as [-> | ->]; discriminate.
  - apply fusedTokens_no_double, Hc.
Qed.

(** X4. The output of the cleaner is always normalized: it holds no
    doubled [.] or [?], it is its tokens joined by one space each, and no
    token of it is a suffix of the token next to it. *)
Theorem clean_normalized (x : jsstring) : normalized (cleanReasoningChain x).
Proof.
  unfold normalized. rewrite clean_tokens. split; [|split; [|split]].
  - apply clean_no_double. left. reflexivity.
  - apply clean_no_double. right. reflexivity.
  - apply clean_join.
  - apply fusedTokens_unrelated.
Qed.

Lemma fusedTokens_normalized x : normalized x -> fusedTokens x = tokenize x.
Proof.
  intros (Hd & Hq & _ & Hu). unfold fusedTokens.
  rewrite (collapse_runs_fixed DOT x Hd), (collapse_runs_fixed QUESTION x Hq).
  rewrite (dedup_fixed (tokenize x) []).
  - apply (fuse_fixed (tokenize x) []). exact Hu.
  - simpl. eapply chain_impl; [apply unrelated_neq|exact Hu].
Qed.

(** X5. The fixed points of the cleaner are exactly the normalized
    texts. *)
Theorem clean_fixed_iff_normalized (x : jsstring) :
  cleanReasoningChain x = x <-> normalized x.
Proof.
  split.
  - intros H. rewrite <- H. unfold normalized. rewrite clean_tokens.
    split; [|split; [|split]].
    + apply clean_no_double. left. reflexivity.
    + apply clean_no_double. right. reflexivity.
    + apply clean_join.
    + apply fusedTokens_unrelated.
  - intros H. rewrite clean_join, (fusedTokens_normalized x H).
    destruct H as (_ & _ & <- & _). reflexivity.
Qed.

(** ** Two tokens of which one ends with the other *)

Lemma fusedTokens_join toks :
  Forall plain_token toks ->
  fusedTokens (join (js " ") toks) =
    fold_left fuse_step (fold_left dedup_step toks []) [].
Proof.
  intros H. unfold fusedTokens.
  assert (Hg : Forall good_token toks)
    by (eapply Forall_impl; [exact H|]; intros t (Ht & _); exact Ht).
  assert (Hd : no_double DOT (join (js " ") toks)).
  { apply join_no_double; [discriminate|].
    eapply Forall_impl; [exact H|]. intros t (_ & Ht & _). exact Ht. }
  assert (Hq : no_double QUESTION (join (js " ") toks)).
  { apply join_no_double; [discriminate|].
    eapply Forall_impl; [exact H|]. intros t (_ & _ & Ht). exact Ht. }
  rewrite (collapse_runs_fixed DOT _ Hd), (collapse_runs_fixed QUESTION _ Hq).
  rewrite (tokenize_join _ Hg). reflexivity.
Qed.

(** X6. Two tokens separated by one space, one of them a suffix of the
    other (or both equal): the cleaner returns the longer one alone. *)
Theorem clean_fuses_suffix_pair (a b : jsstring)
    (Ha : plain_token a) (Hb : plain_token b)
    (Hrel : a `suffix_of` b \/ b `suffix_of` a) :
  cleanReasoningChain (a ++ js " " ++ b) =
    if (length a <? length b)%nat then b else a.
Proof.
  change (a ++ js " " ++ b) with (join (js " ") [a; b]).
  assert (Hab : Forall plain_token [a; b])
    by (constructor; [exact Ha|constructor; [exact Hb|constructor]]).
  rewrite clean_join, (fusedTokens_join _ Hab).
  cbn [fold_left]. change (dedup_step [] a) with [a].
  unfold dedup_step at 1. cbn [last_token last].
  destruct (str_eqb a b) eqn:E.
  - apply str_eqb_eq in E as <-. rewrite Nat.ltb_irrefl. reflexivity.
  - change (fold_left fuse_step ([a] ++ [b]) [])
      with (fuse_step ([] ++ [a]) b).
    rewrite (fuse_step_suffix [] a b) by tauto. reflexivity.
Qed.

Lemma no_double_absent c s :
  forallb (fun x => negb (x =? c)) s = true -> no_double c s.
Proof.
  unfold no_double. induction s as [|x s IH]; intros H; [exact I|].
  simpl in H. apply andb_true_iff in H as [Hx Hs].
  apply chain_cons. split; [|apply IH, Hs].
  intros y _ [-> _]. rewrite N.eqb_refl in Hx. discriminate.
Qed.

Ltac plain_token_by_evaluation :=
  split; [split; [discriminate|repeat constructor]
         |split; apply no_double_absent; reflexivity].

Lemma clean_fuses_suffix_pair_witness :
  cleanReasoningChain (js "olution" ++ js " " ++ js "resolution") =
    if (length (js "olution") <? length (js "resolution"))%nat
    then js "resolution" else js "olution".
Proof.
  apply clean_fuses_suffix_pair.
  - plain_token_by_evaluation.
  - plain_token_by_evaluation.
  - left. exists (js "res"). reflexivity.
Defined.

(** ** The lines of a chunk *)

Lemma split_char_cons sep s :
  exists piece pieces, split_char sep s = piece :: pieces.
Proof.
  induction s as [|c s IH]; simpl; [eauto|].
  destruct (c =? sep); [eauto|]. destruct (split_char sep s); eauto.
Qed.

Lemma split_char_no_sep sep s :
  Forall (Forall (fun c => c <> sep)) (split_char sep s).
Proof.
  induction s as [|c s IH]; simpl.
  - repeat constructor.
  - destruct (N.eqb_spec c sep) as [->|Hne].
    + constructor; [constructor|exact IH].
    + destruct (split_char sep s) as [|p ps]; [repeat constructor; exact Hne|].
      inversion IH; subst. constructor; [constructor; assumption|assumption].
Qed.

Lemma split_char_app sep a b :
  split_char sep (a ++ sep :: b) = split_char sep a ++ split_char sep b.
Proof.
  induction a as [|c a IH]; simpl.
  - rewrite N.eqb_refl. reflexivity.
  - destruct (c =? sep); rewrite IH; [reflexivity|].
    destruct (split_char_cons sep a) as (p & ps & ->). reflexivity.
Qed.

(** X7. Every line that the reader loop takes from a chunk is free of
    newlines and is not blank. *)
Theorem chunk_lines_wellformed (chunk : jsstring) :
  Forall (fun line => Forall (fun c => c <> NEWLINE) line /\ trim line <> [])
    (chunk_lines chunk).
Proof.
  apply List.Forall_forall. intros line Hin.
  apply filter_In in Hin as [Hin Hne]. split.
  - pose proof (split_char_no_sep NEWLINE chunk) as H.
    rewrite List.Forall_forall in H. apply H, Hin.
  - intros E. rewrite E in Hne. discriminate Hne.
Qed.

Lemma chunk_lines_newline a b :
  chunk_lines (a ++ NEWLINE :: b) = chunk_lines a ++ chunk_lines b.
Proof.
  unfold chunk_lines. rewrite split_char_app. apply List.filter_app.
Qed.

(** X8. Where a chunk has a newline it can be cut: the lines of the whole
    chunk are the lines of the part before the newline followed by the
    lines of the part after it; a newline at the very end adds no line. *)
Theorem chunk_lines_app (a b : jsstring) :
  chunk_lines (a ++ NEWLINE :: b) = chunk_lines a ++ chunk_lines b
  /\ chunk_lines (a ++ [NEWLINE]) = chunk_lines a.
Proof.
  split; [apply chunk_lines_newline|].
  rewrite chunk_lines_newline. apply app_nil_r.
Qed.

(** ** White space around a line *)

Lemma drop_ws_all_ws a r : all_ws a -> drop_ws (a ++ r) = drop_ws r.
Proof.
  induction 1 as [|c a Hc _ IH]; simpl; [reflexivity|].
  rewrite Hc. exact IH.
Qed.

Lemma all_ws_rev a : all_ws a -> all_ws (rev a).
Proof.
  unfold all_ws. intros H. apply List.Forall_forall. intros c Hc.
  apply in_rev in Hc. rewrite List.Forall_forall in H. auto.
Qed.

Lemma drop_ws_split s : exists lead, all_ws lead /\ s = lead ++ drop_ws s.
Proof.
  induction s as [|c s (lead & Hl & E)]; simpl.
  - exists []. split; [constructor|reflexivity].
  - destruct (is_ws c) eqn:Hc.
    + exists (c :: lead). split; [constructor; assumption|].
      simpl. f_equal. exact E.
    + exists []. split; [constructor|reflexivity].
Qed.

Lemma trim_split s :
  exists lead trail, all_ws lead /\ all_ws trail /\ s = lead ++ trim s ++ trail.
Proof.
  destruct (drop_ws_split s) as (lead & Hl & E).
  destruct (drop_ws_split (rev (drop_ws s))) as (t & Ht & Et).
  exists lead, (rev t). split; [exact Hl|]. split; [apply all_ws_rev, Ht|].
  unfold trim. rewrite <- rev_app_distr, <- Et, rev_involutive. exact E.
Qed.

Lemma trim_padded a s b :
  all_ws a -> all_ws b ->
  (forall c, head s = Some c -> is_ws c = false) ->
  (forall c, last s = Some c -> is_ws c = false) ->
  s <> [] ->
  trim (a ++ s ++ b) = s.
Proof.
  intros Ha Hb Hh Hl Hne. unfold trim. rewrite (drop_ws_all_ws a _ Ha).
  assert (E1 : drop_ws (s ++ b) = s ++ b).
  { destruct s as [|c s]; [contradiction|]. simpl.
    rewrite (Hh c eq_refl). reflexivity. }
  rewrite E1, rev_app_distr, (drop_ws_all_ws _ _ (all_ws_rev b Hb)).
  assert (E2 : drop_ws (rev s) = rev s).
  { destruct (last_cases s) as [[-> _]|(l & x & -> & Hx)]; [contradiction|].
    rewrite rev_app_distr. simpl. rewrite (Hl x Hx). reflexivity. }
  rewrite E2. apply rev_involutive.
Qed.

(** X9. A line is taken for the sentinel exactly when it is
    "data: [DONE]" with nothing but white space before and after it (a
    carriage return, for instance). *)
Theorem is_sentinel_iff_padded (line : jsstring) :
  is_sentinel line = true <->
  exists a b, all_ws a /\ all_ws b /\ line = a ++ SENTINEL ++ b.
Proof.
  unfold is_sentinel. rewrite str_eqb_eq. split.
  - intros E. destruct (trim_split line) as (a & b & Ha & Hb & Hline).
    exists a, b. rewrite <- E. auto.
  - intros (a & b & Ha & Hb & ->). apply trim_padded; try assumption.
    + intros c [= <-]. reflexivity.
    + intros c [= <-]. reflexivity.
    + discriminate.
Qed.

Lemma drop_ws_nil a : all_ws a -> drop_ws a = [].
Proof.
  intros H. rewrite <- (app_nil_r a), (drop_ws_all_ws a [] H). reflexivity.
Qed.

Lemma trim_all_ws a : all_ws a -> trim a = [].
Proof. intros H. unfold trim. rewrite (drop_ws_nil a H). reflexivity. Qed.

Lemma split_char_all_ws sep s :
  all_ws s -> Forall all_ws (split_char sep s).
Proof.
  induction 1 as [|c s Hc _ IH]; simpl.
  - repeat constructor.
  - destruct (c =? sep); [constructor; [constructor|exact IH]|].
    destruct (split_char sep s) as [|p ps]; [repeat constructor; exact Hc|].
    inversion IH; subst.
    constructor; [constructor; assumption|assumption].
Qed.

Lemma chunk_lines_blank chunk : all_ws chunk -> chunk_lines chunk = [].
Proof.
  intros H. unfold chunk_lines.
  pose proof (split_char_all_ws NEWLINE chunk H) as Hp.
  induction Hp as [|p ps Hws _ IH]; [reflexivity|].
  simpl. rewrite (trim_all_ws p Hws). exact IH.
Qed.

(** X10. A chunk that holds only white space (a keep-alive newline, for
    instance) has no effect in either version: the loop goes on to the
    next read with the same state. *)
Theorem blank_chunk_ignored
    (JSON_parse : jsstring -> option JSON)
    (st1 : V1.State) (st2 : V2.State) (loc : V2.Locals)
    (capturedReasoning : jsstring)
    (chunk : jsstring) (rest : list ReadResult)
    (Hblank : all_ws chunk) :
  V1.read_loop JSON_parse st1 false (Chunk chunk :: rest) =
    (let '(st, ending, log) := V1.read_loop JSON_parse st1 false rest in
     (st, ending, ReadCall :: log))
  /\ V2.read_loop JSON_parse capturedReasoning st2 loc (Chunk chunk :: rest) =
       (let '(st, l, ending, log) :=
          V2.read_loop JSON_parse capturedReasoning st2 loc rest in
        (st, l, ending, ReadCall :: log)).
Proof.
  simpl. rewrite (chunk_lines_blank chunk Hblank). simpl.
  split; reflexivity.
Qed.

Lemma blank_chunk_witness :
  V1.read_loop sample_parse empty_state false
      (Chunk (js " " ++ [NEWLINE]) :: [Chunk (nl line_c1)]) =
    (let '(st, ending, log) :=
       V1.read_loop sample_parse empty_state false [Chunk (nl line_c1)] in
     (st, ending, ReadCall :: log))
  /\ V2.read_loop sample_parse [] empty_state2 (V2.mkLocals false (-1))
       (Chunk (js " " ++ [NEWLINE]) :: [Chunk (nl line_c1)]) =
       (let '(st, l, ending, log) :=
          V2.read_loop sample_parse [] empty_state2 (V2.mkLocals false (-1))
            [Chunk (nl line_c1)] in
        (st, l, ending, ReadCall :: log)).
Proof.
  apply (blank_chunk_ignored sample_parse empty_state empty_state2
           (V2.mkLocals false (-1)) [] (js " " ++ [NEWLINE])
           [Chunk (nl line_c1)]).
  repeat constructor.
Defined.

(** ** The first version: what a line can do *)

Lemma decode_Delta_inv parsed finish rc c :
  V1.decode parsed = V1.Delta finish rc c ->
  exists data choice delta,
    parsed = Some data /\ data <> JNull
    /\ index0 (get_field data (js "choices")) = Some choice
    /\ truthy choice = true
    /\ get_field choice (js "delta") = Some delta
    /\ truthy delta = true
    /\ rc = non_null (get_field delta (js "reasoning_content"))
    /\ c = non_null (get_field delta (js "content")).
Proof.
  unfold V1.decode. intros H.
  destruct parsed as [data|]; [|discriminate].
  assert (Hmain :
    match index0 (get_field data (js "choices")) with
    | None => V1.NoChoice
    | Some choice =>
        if negb (truthy choice) then V1.NoChoice
        else
          let finish := truthy_opt (get_field choice (js "finish_reason")) in
          match get_field choice (js "delta") with
          | None => V1.NoDelta finish
          | Some delta =>
              if negb (truthy delta) then V1.NoDelta finish
              else
                V1.Delta finish
                  (non_null (get_field delta (js "reasoning_content")))
                  (non_null (get_field delta (js "content")))
          end
    end = V1.Delta finish rc c ->
    data <> JNull ->
    exists data' choice delta,
      Some data = Some data' /\ data' <> JNull
      /\ index0 (get_field data' (js "choices")) = Some choice
      /\ truthy choice = true
      /\ get_field choice (js "delta") = Some delta
      /\ truthy delta = true
      /\ rc = non_null (get_field delta (js "reasoning_content"))
      /\ c = non_null (get_field delta (js "content"))).
  { clear H. intros H Hnull.
    destruct (index0 _) as [choice|] eqn:E0; [|discriminate].
    destruct (truthy choice) eqn:Hc; [|discriminate]. simpl in H.
    destruct (get_field choice (js "delta")) as [delta|] eqn:E1;
      [|discriminate].
    destruct (truthy delta) eqn:Hd; [|discriminate]. simpl in H.
    injection H as _ <- <-.
    exists data, choice, delta. repeat split; assumption. }
  destruct data; try discriminate; apply Hmain; try exact H; discriminate.
Qed.

(** X11. A line changes the state only when its JSON is not [null], has a
    truthy [choices[0]] with a truthy [delta], and that delta holds a
    [reasoning_content] or a [content] that is not [null].  Malformed
    lines, the sentinel, and events that lack one of these fields leave
    the state as it is. *)
Theorem state_changes_only_on_delta
    (JSON_parse : jsstring -> option JSON)
    (st : V1.State) (finished : bool) (line : jsstring)
    (Hchange : (V1.process_line JSON_parse st finished line).1.1.1 <> st) :
  exists data choice delta,
    is_sentinel line = false
    /\ JSON_parse (strip_prefix line) = Some data /\ data <> JNull
    /\ index0 (get_field data (js "choices")) = Some choice
    /\ truthy choice = true
    /\ get_field choice (js "delta") = Some delta
    /\ truthy delta = true
    /\ (non_null (get_field delta (js "reasoning_content")) <> None
        \/ non_null (get_field delta (js "content")) <> None).
Proof.
  unfold V1.process_line in Hchange.
  destruct (is_sentinel line) eqn:Hs; [contradiction|].
  destruct (V1.decode (JSON_parse (strip_prefix line)))
    as [| |f|f rc c] eqn:Hd; try contradiction.
  destruct (decode_Delta_inv _ _ _ _ Hd)
    as (data & choice & delta & Hp & Hn & H0 & Hc & H1 & Ht & Hrc & Hcc).
  exists data, choice, delta. repeat split; try assumption.
  destruct rc as [v|]; [left; rewrite <- Hrc; discriminate|].
  destruct c as [v|]; [right; rewrite <- Hcc; discriminate|].
  contradiction.
Qed.

Lemma state_changes_witness :
  exists data choice delta,
    is_sentinel line_c1 = false
    /\ sample_parse (strip_prefix line_c1) = Some data /\ data <> JNull
    /\ index0 (get_field data (js "choices")) = Some choice
    /\ truthy choice = true
    /\ get_field choice (js "delta") = Some delta
    /\ truthy delta = true
    /\ (non_null (get_field delta (js "reasoning_content")) <> None
        \/ non_null (get_field delta (js "content")) <> None).
Proof.
  apply (state_changes_only_on_delta sample_parse empty_state false line_c1).
  vm_compute. discriminate.
Defined.

(** ** The first version: a finishing event inside a chunk *)

Lemma process_line_flag JSON_parse st finished line :
  is_sentinel line = false ->
  exists st',
    V1.process_line JSON_parse st finished line =
      (st', line_finish JSON_parse line || finished, Next,
       line_log JSON_parse line).
Proof.
  intros H. unfold V1.process_line, line_finish, line_log, decoded_line.
  rewrite H. destruct (V1.decode _); eauto.
Qed.

Lemma process_lines_flag JSON_parse lines :
  Forall (fun l => is_sentinel l = false) lines ->
  forall st finished,
  exists st',
    V1.process_lines JSON_parse st finished lines =
      (st', existsb (line_finish JSON_parse) lines || finished,
       concat (map (line_log JSON_parse) lines)).
Proof.
  induction 1 as [|l lines Hl _ IH]; intros st finished; simpl.
  - eauto.
  - destruct (process_line_flag JSON_parse st finished l Hl) as [st1 ->].
    destruct (IH st1 (line_finish JSON_parse l || finished)) as [st2 ->].
    exists st2. f_equal. f_equal.
    destruct (line_finish JSON_parse l), (existsb _ lines), finished;
      reflexivity.
Qed.

(** X12. When a line of a chunk carries a truthy [finish_reason] (and the
    chunk holds no sentinel), all lines of that chunk are still processed,
    those after the finishing one too, and then the loop ends: nothing of
    the rest of the stream is read. *)
Theorem finish_ends_after_chunk
    (JSON_parse : jsstring -> option JSON)
    (st : V1.State) (chunk : jsstring) (rest : list ReadResult)
    (Hlines : Forall (fun l => is_sentinel l = false) (chunk_lines chunk))
    (Hfinish : existsb (line_finish JSON_parse) (chunk_lines chunk) = true) :
  V1.read_loop JSON_parse st false (Chunk chunk :: rest) =
    ((V1.process_lines JSON_parse st false (chunk_lines chunk)).1.1,
     Finished,
     ReadCall :: concat (map (line_log JSON_parse) (chunk_lines chunk))).
Proof.
  simpl.
  destruct (process_lines_flag JSON_parse _ Hlines st false) as [st' ->].
  rewrite Hfinish. reflexivity.
Qed.

Lemma finish_ends_witness :
  V1.read_loop sample_parse (V1.start_turn empty_state (js "hi")) false
      (Chunk (nl line_c1 ++ nl line_stop ++ nl line_c2)
         :: [Chunk (nl line_c1)]) =
    ((V1.process_lines sample_parse (V1.start_turn empty_state (js "hi"))
        false (chunk_lines (nl line_c1 ++ nl line_stop ++ nl line_c2))).1.1,
     Finished,
     ReadCall
       :: concat (map (line_log sample_parse)
                    (chunk_lines (nl line_c1 ++ nl line_stop ++ nl line_c2)))).
Proof.
  apply finish_ends_after_chunk.
  - vm_compute. repeat constructor.
  - vm_compute. reflexivity.
Defined.

Example finish_ends_sample :
  V1.messages
    (V1.handleSend sample_parse empty_state (js "hi")
       (ok_response
          [Chunk (nl line_c1 ++ nl line_stop ++ nl line_c2);
           Chunk (nl line_c1)])).1 =
  [user_message (js "hi"); complete_answer (js "Hello") []].
Proof. vm_compute. reflexivity. Qed.

(** ** The first version: deltas in any order *)

Lemma read_loop_plain JSON_parse chunks : forall base cs rs,
  Forall (plain_line JSON_parse) (concat (map chunk_lines chunks)) ->
  exists log,
    V1.read_loop JSON_parse (turn_state base cs rs) false (map Chunk chunks) =
      (turn_state base
         (cs ++ lines_content JSON_parse (concat (map chunk_lines chunks)))
         (rs ++ lines_reasoning JSON_parse (concat (map chunk_lines chunks))),
       StreamDone, log).
Proof.
  induction chunks as [|c chunks IH]; intros base cs rs H; simpl.
  - rewrite !app_nil_r. eauto.
  - simpl in H. apply Forall_app in H as [Hc Hrest].
    rewrite (process_lines_turn_state _ _ _ _ _ _
               (plain_lines_no_sentinel _ _ Hc)).
    rewrite (plain_lines_no_finish _ _ Hc). cbn [orb].
    destruct (IH base (cs ++ lines_content JSON_parse (chunk_lines c))
                (rs ++ lines_reasoning JSON_parse (chunk_lines c)) Hrest)
      as [log ->].
    eexists. rewrite lines_content_app, lines_reasoning_app, !app_assoc.
    reflexivity.
Qed.

(** X13. A stream that ends by the reader reporting [done], with lines of
    any kind in any order (reasoning deltas, content deltas, both in one
    event, events without delta, malformed lines) but without sentinel
    and without [finish_reason].  The turn adds the user's message and,
    when there was a content delta, one complete answer: its content is
    all content deltas in order and its reasoning is the cleaned
    concatenation of all reasoning deltas in order, also of those that
    arrived after the first content delta.  The accumulator is cleared. *)
Theorem deltas_in_any_order
    (JSON_parse : jsstring -> option JSON)
    (st : V1.State) (prompt : jsstring) (status : N)
    (chunks : list jsstring)
    (Hplain :
       Forall (plain_line JSON_parse) (concat (map chunk_lines chunks))) :
  let lines := concat (map chunk_lines chunks) in
  let final :=
    (V1.handleSend JSON_parse st prompt
       (Resolved (mkResponse true status (Some (map Chunk chunks))))).1 in
  V1.messages final =
    V1.messages st ++ user_message prompt
      :: match lines_content JSON_parse lines with
         | [] => []
         | cs =>
             [complete_answer (concat cs)
                (cleanReasoningChain (lines_reasoning JSON_parse lines))]
         end
  /\ V1.reasoningAccumulatorRef final = []
  /\ V1.isLoading final = false.
Proof.
  cbv zeta.
  destruct (read_loop_plain JSON_parse chunks
              (V1.messages st ++ [user_message prompt]) [] [] Hplain)
    as [log Hlog].
  cbn [app] in Hlog.
  unfold V1.handleSend, V1.try_block. rewrite start_turn_turn_state.
  cbn [ok body negb]. rewrite Hlog, finalizeMessage_turn_state.
  destruct (lines_content JSON_parse _); cbn; rewrite <- ?app_assoc;
    repeat split.
Qed.

Lemma deltas_in_any_order_witness :
  let chunks := [nl line_c1 ++ nl line_r1; nl bad_line ++ nl line_c2;
                 nl line_r2] in
  let lines := concat (map chunk_lines chunks) in
  let final :=
    (V1.handleSend sample_parse empty_state (js "hi")
       (Resolved (mkResponse true 200 (Some (map Chunk chunks))))).1 in
  V1.messages final =
    V1.messages empty_state ++ user_message (js "hi")
      :: match lines_content sample_parse lines with
         | [] => []
         | cs =>
             [complete_answer (concat cs)
                (cleanReasoningChain (lines_reasoning sample_parse lines))]
         end
  /\ V1.reasoningAccumulatorRef final = []
  /\ V1.isLoading final = false.
Proof.
  apply (deltas_in_any_order sample_parse empty_state (js "hi") 200
           [nl line_c1 ++ nl line_r1; nl bad_line ++ nl line_c2; nl line_r2]).
  vm_compute. repeat constructor.
Defined.

Example deltas_in_any_order_sample :
  V1.messages
    (V1.handleSend sample_parse empty_state (js "hi")
       (ok_response
          (map Chunk [nl line_c1 ++ nl line_r1; nl bad_line ++ nl line_c2;
                      nl line_r2]))).1 =
  [user_message (js "hi"); complete_answer (js "Hello") (js "Wait. what?")].
Proof. vm_compute. reflexivity. Qed.

(** ** The first version: the shape of every turn *)

Lemma process_line_keeps_turn_state JSON_parse base cs rs finished line :
  exists cs' rs' finished' ctl log,
    V1.process_line JSON_parse (turn_state base cs rs) finished line =
      (turn_state base cs' rs', finished', ctl, log).
Proof.
  destruct (is_sentinel line) eqn:Hs.
  - rewrite (process_line_sentinel _ _ _ _ Hs). eauto 10.
  - rewrite (process_line_turn_state _ _ _ _ _ _ Hs). eauto 10.
Qed.

Lemma process_lines_keep_turn_state JSON_parse base lines :
  forall cs rs finished,
  exists cs' rs' finished' log,
    V1.process_lines JSON_parse (turn_state base cs rs) finished lines =
      (turn_state base cs' rs', finished', log).
Proof.
  induction lines as [|l lines IH]; intros cs rs finished; simpl.
  - eauto 10.
  - destruct (process_line_keeps_turn_state JSON_parse base cs rs finished l)
      as (cs1 & rs1 & f1 & ctl & log & ->).
    destruct ctl; [|eauto 10].
    destruct (IH cs1 rs1 f1) as (cs2 & rs2 & f2 & log2 & ->). eauto 10.
Qed.

Lemma read_loop_keeps_turn_state JSON_parse base stream :
  forall cs rs finished,
  exists cs' rs' ending log,
    V1.read_loop JSON_parse (turn_state base cs rs) finished stream =
      (turn_state base cs' rs', ending, log).
Proof.
  induction stream as [|r stream IH]; intros cs rs finished; simpl.
  - eauto 10.
  - destruct r as [text|e]; [|eauto 10].
    destruct (process_lines_keep_turn_state JSON_parse base
                (chunk_lines text) cs rs finished)
      as (cs1 & rs1 & f1 & log1 & ->).
    destruct f1; [eauto 10|].
    destruct (IH cs1 rs1 false) as (cs2 & rs2 & e2 & log2 & ->). eauto 10.
Qed.

(** X14. Whatever the outcome of the request and whatever the stream
    holds, a call of [handleSend] leaves the earlier messages as they
    were and adds, in this order, the user's message, at most one answer
    message and at most one error message.  The answer is complete when
    no error message follows it and still open when one does; the loading
    flag ends false. *)
Theorem shape_of_a_turn
    (JSON_parse : jsstring -> option JSON)
    (st : V1.State) (prompt : jsstring) (fetch : FetchResult) :
  let final := (V1.handleSend JSON_parse st prompt fetch).1 in
  V1.isLoading final = false
  /\ exists answer err,
       V1.messages final =
         V1.messages st ++ user_message prompt :: answer ++ err
       /\ ((answer = [] /\ err = [])
           \/ (exists text reason,
                 answer = [complete_answer text reason] /\ err = [])
           \/ (exists e, answer = [] /\ err = [error_message e])
           \/ (exists text e,
                 answer = [open_answer text] /\ err = [error_message e])).
Proof.
  cbv zeta. split; [unfold V1.handleSend;
                    destruct (V1.try_block _ _ _) as [[s t] l];
                    reflexivity|].
  assert (Hfail : forall cs rs e,
    exists answer err,
      V1.messages (turn_state (V1.messages st ++ [user_message prompt]) cs rs)
        ++ [error_message e] =
        V1.messages st ++ user_message prompt :: answer ++ err
      /\ ((answer = [] /\ err = [])
          \/ (exists text reason,
                answer = [complete_answer text reason] /\ err = [])
          \/ (exists e, answer = [] /\ err = [error_message e])
          \/ (exists text e,
                answer = [open_answer text] /\ err = [error_message e]))).
  { intros cs rs e. destruct cs as [|c0 cs].
    - exists [], [error_message e]. split.
      + simpl. rewrite <- app_assoc. reflexivity.
      + right. right. left. eauto.
    - exists [open_answer (concat (c0 :: cs))], [error_message e]. split.
      + cbn [turn_state V1.messages]. rewrite <- !app_assoc. reflexivity.
      + right. right. right. eauto. }
  assert (Hdone : forall cs rs,
    exists answer err,
      V1.messages
        (V1.finalizeMessage
           (turn_state (V1.messages st ++ [user_message prompt]) cs rs)) =
        V1.messages st ++ user_message prompt :: answer ++ err
      /\ ((answer = [] /\ err = [])
          \/ (exists text reason,
                answer = [complete_answer text reason] /\ err = [])
          \/ (exists e, answer = [] /\ err = [error_message e])
          \/ (exists text e,
                answer = [open_answer text] /\ err = [error_message e]))).
  { intros cs rs. rewrite finalizeMessage_turn_state.
    destruct cs as [|c0 cs].
    - exists [], []. split; [reflexivity|]. left. auto.
    - exists [complete_answer (concat (c0 :: cs)) (cleanReasoningChain rs)],
        []. split.
      + cbn [V1.messages]. rewrite <- !app_assoc. reflexivity.
      + right. left. eauto. }
  unfold V1.handleSend, V1.try_block. rewrite start_turn_turn_state.
  destruct fetch as [e|[isok code strm]].
  - apply (Hfail [] [] e).
  - cbn [ok body status]. destruct isok; cbn [negb].
    + destruct strm as [stream|]; [|apply (Hdone [] [])].
      destruct (read_loop_keeps_turn_state JSON_parse
                  (V1.messages st ++ [user_message prompt]) stream [] [] false)
        as (cs & rs & ending & log & ->).
      destruct ending as [| |e]; [apply Hdone|apply Hdone|apply Hfail].
    + apply (Hfail [] [] (http_error code)).
Qed.

(** ** The first version: what is on screen while a turn streams *)

(** X15. In every state of a turn the typing indicator is rendered
    exactly as long as no content delta has arrived, and none of the
    messages added in the turn has its reasoning block rendered: the
    reasoning is not shown while the answer streams. *)
Theorem display_while_streaming
    (JSON_parse : jsstring -> option JSON)
    (st0 : V1.State) (prompt : jsstring) (lines : list jsstring)
    (st : V1.State)
    (Hreach : turn_reaches JSON_parse st0 prompt lines st) :
  let seen := List.filter (fun l => negb (is_sentinel l)) lines in
  typing_indicator st =
    match lines_content JSON_parse seen with
    | [] => true
    | _ => false
    end
  /\ Forall (fun m => reasoning_shown m = false)
       (drop (length (V1.messages st0)) (V1.messages st)).
Proof.
  cbv zeta. rewrite (turn_reaches_turn_state _ _ _ _ _ Hreach).
  destruct (lines_content JSON_parse _) as [|c0 cs].
  - split; [reflexivity|]. cbn [turn_state V1.messages].
    rewrite drop_app_length. repeat constructor.
  - split.
    + unfold typing_indicator. cbn [turn_state V1.isLoading
        V1.answerMessageIndexRef andb].
      apply Z.eqb_neq. lia.
    + cbn [turn_state V1.messages]. rewrite <- app_assoc, drop_app_length.
      repeat constructor.
Qed.

Lemma display_while_streaming_witness :
  let lines := ([] ++ [line_r1]) ++ [line_c1] in
  let st :=
    (V1.process_line sample_parse
       (V1.process_line sample_parse (V1.start_turn empty_state (js "hi"))
          false line_r1).1.1.1 false line_c1).1.1.1 in
  let seen := List.filter (fun l => negb (is_sentinel l)) lines in
  typing_indicator st =
    match lines_content sample_parse seen with
    | [] => true
    | _ => false
    end
  /\ Forall (fun m => reasoning_shown m = false)
       (drop (length (V1.messages empty_state)) (V1.messages st)).
Proof.
  apply (display_while_streaming sample_parse empty_state (js "hi")).
  apply reaches_line, reaches_line, reaches_start.
Defined.

(** ** The first version: cutting a chunk at a newline *)

Lemma process_lines_app_nofinish JSON_parse la lb :
  Forall (fun l => line_finish JSON_parse l = false) la ->
  forall st,
    V1.process_lines JSON_parse st false (la ++ lb) =
      (let '(s1, f1, g1) := V1.process_lines JSON_parse st false la in
       if f1 then (s1, true, g1)
       else
         let '(s2, f2, g2) := V1.process_lines JSON_parse s1 false lb in
         (s2, f2, g1 ++ g2)).
Proof.
  induction 1 as [|l la Hl _ IH]; intros st.
  - simpl. destruct (V1.process_lines _ st false lb) as [[s2 f2] g2].
    reflexivity.
  - simpl. destruct (is_sentinel l) eqn:Hs.
    + rewrite (process_line_sentinel _ _ _ _ Hs). reflexivity.
    + destruct (process_line_flag JSON_parse st false l Hs) as [st1 ->].
      rewrite Hl. cbn [orb]. rewrite IH.
      destruct (V1.process_lines _ st1 false la) as [[s1 f1] g1].
      destruct f1; [reflexivity|].
      destruct (V1.process_lines _ s1 false lb) as [[s2 f2] g2].
      rewrite app_assoc. reflexivity.
Qed.

(** X16. A chunk can be delivered in two reads, cut after one of its
    newlines, with the same resulting state and the same end of the loop,
    provided that no line before the cut carries a truthy
    [finish_reason]. *)
Theorem chunk_cut_at_newline
    (JSON_parse : jsstring -> option JSON)
    (st : V1.State) (a b : jsstring) (rest : list ReadResult)
    (Hnofinish :
       Forall (fun l => line_finish JSON_parse l = false) (chunk_lines a)) :
  (V1.read_loop JSON_parse st false (Chunk (a ++ NEWLINE :: b) :: rest)).1 =
  (V1.read_loop JSON_parse st false
     (Chunk (a ++ [NEWLINE]) :: Chunk b :: rest)).1.
Proof.
  simpl. rewrite !chunk_lines_newline.
  change (chunk_lines []) with (@nil jsstring). rewrite app_nil_r.
  rewrite (process_lines_app_nofinish _ _ _ Hnofinish).
  destruct (V1.process_lines _ st false (chunk_lines a)) as [[s1 f1] g1].
  destruct f1; [reflexivity|].
  destruct (V1.process_lines _ s1 false (chunk_lines b)) as [[s2 f2] g2].
  destruct f2; [reflexivity|].
  destruct (V1.read_loop _ s2 false rest) as [[s3 e3] g3]. reflexivity.
Qed.

Lemma chunk_cut_witness :
  (V1.read_loop sample_parse (V1.start_turn empty_state (js "hi")) false
     (Chunk (line_c1 ++ NEWLINE :: nl line_c2) :: [])).1 =
  (V1.read_loop sample_parse (V1.start_turn empty_state (js "hi")) false
     (Chunk (line_c1 ++ [NEWLINE]) :: Chunk (nl line_c2) :: [])).1.
Proof.
  apply chunk_cut_at_newline. vm_compute. repeat constructor.
Defined.

(** ** The first version: the three updaters on any state *)

(** X17. The three updaters compose on any state: creating the answer
    message and appending a chunk leaves the old messages followed by one
    open answer holding that chunk, and finalizing then turns it into a
    complete answer whose reasoning is the cleaned accumulator. *)
Theorem create_append_finalize (st : V1.State) (v : JSON) :
  let created := V1.createFinalMessage st in
  let appended := V1.appendContentToFinalMessage v created in
  V1.message_at (V1.messages created) (V1.answerMessageIndexRef created)
    = Some (open_answer [])
  /\ V1.messages appended = V1.messages st ++ [open_answer (to_string v)]
  /\ V1.messages (V1.finalizeMessage appended) =
       V1.messages st
         ++ [complete_answer (to_string v)
               (cleanReasoningChain (V1.reasoningAccumulatorRef st))].
Proof.
  destruct st as [ms b i c rs]. cbv zeta.
  rewrite createFinalMessage_index, appendContent_open.
  cbn [V1.messages V1.answerMessageIndexRef V1.reasoningAccumulatorRef].
  split; [apply message_at_last|]. split; [reflexivity|].
  unfold V1.finalizeMessage.
  cbn [V1.messages V1.answerMessageIndexRef V1.reasoningAccumulatorRef].
  rewrite message_at_last.
  unfold V1.set_messages, V1.set_reasoningAccumulatorRef.
  cbn [V1.messages]. rewrite insert_last. reflexivity.
Qed.

Lemma message_at_Some arr idx m :
  V1.message_at arr idx = Some m ->
  (0 <= idx)%Z /\ arr !! Z.to_nat idx = Some m.
Proof.
  unfold V1.message_at. destruct (Z.leb_spec 0 idx); [auto|discriminate].
Qed.

(** X18. [appendContentToFinalMessage] and [finalizeMessage] keep the
    number of messages and touch no message but the one that the index
    ref names; when the ref is negative or beyond the list they change no
    message at all. *)
Theorem updaters_touch_only_indexed_message (st : V1.State) (v : JSON) :
  let idx := V1.answerMessageIndexRef st in
  let appended := V1.appendContentToFinalMessage v st in
  let finalized := V1.finalizeMessage st in
  length (V1.messages appended) = length (V1.messages st)
  /\ length (V1.messages finalized) = length (V1.messages st)
  /\ (forall i : nat,
        Z.of_nat i <> idx ->
        V1.messages appended !! i = V1.messages st !! i
        /\ V1.messages finalized !! i = V1.messages st !! i)
  /\ (V1.message_at (V1.messages st) idx = None ->
        V1.messages appended = V1.messages st
        /\ V1.messages finalized = V1.messages st).
Proof.
  cbv zeta. unfold V1.appendContentToFinalMessage, V1.finalizeMessage.
  destruct (V1.message_at (V1.messages st) (V1.answerMessageIndexRef st))
    as [m|] eqn:E.
  - apply message_at_Some in E as [Hidx _].
    cbn [V1.set_messages V1.set_reasoningAccumulatorRef V1.messages].
    rewrite !length_insert. repeat split; try discriminate.
    + apply list_lookup_insert_ne. lia.
    + apply list_lookup_insert_ne. lia.
  - cbn [V1.set_reasoningAccumulatorRef V1.messages]. repeat split.
Qed.

(** ** The first version: the accumulator only grows *)

Lemma appendContent_accumulator v st :
  V1.reasoningAccumulatorRef (V1.appendContentToFinalMessage v st) =
    V1.reasoningAccumulatorRef st.
Proof.
  unfold V1.appendContentToFinalMessage.
  destruct (V1.message_at _ _); reflexivity.
Qed.

Lemma apply_delta_accumulator rc c st :
  V1.reasoningAccumulatorRef (V1.apply_delta rc c st) =
    V1.reasoningAccumulatorRef st
      ++ match rc with Some v => to_string v | None => [] end.
Proof.
  unfold V1.apply_delta. destruct c as [v|].
  - rewrite appendContent_accumulator.
    destruct rc; simpl; destruct (V1.alreadyCreatedRef st); simpl;
      rewrite ?app_nil_r; reflexivity.
  - destruct rc; simpl; rewrite ?app_nil_r; reflexivity.
Qed.

Lemma process_line_accumulator JSON_parse st finished line :
  V1.reasoningAccumulatorRef
    (V1.process_line JSON_parse st finished line).1.1.1 =
  V1.reasoningAccumulatorRef st
    ++ (if is_sentinel line then [] else line_reasoning JSON_parse line).
Proof.
  unfold V1.process_line, line_reasoning, decoded_line.
  destruct (is_sentinel line); [simpl; rewrite app_nil_r; reflexivity|].
  destruct (V1.decode _) as [| |f|f rc c]; simpl; rewrite ?app_nil_r;
    try reflexivity.
  rewrite apply_delta_accumulator. destruct rc; reflexivity.
Qed.

Lemma process_lines_accumulator JSON_parse lines : forall st finished,
  V1.reasoningAccumulatorRef st
    `prefix_of` V1.reasoningAccumulatorRef
                  (V1.process_lines JSON_parse st finished lines).1.1.
Proof.
  induction lines as [|l lines IH]; intros st finished; simpl; [reflexivity|].
  pose proof (process_line_accumulator JSON_parse st finished l) as Hl.
  destruct (V1.process_line _ st finished l) as [[[st1 f1] ctl] log].
  simpl in Hl.
  assert (H1 : V1.reasoningAccumulatorRef st
                 `prefix_of` V1.reasoningAccumulatorRef st1)
    by (rewrite Hl; apply prefix_app_r; reflexivity).
  destruct ctl; [|exact H1].
  specialize (IH st1 f1).
  destruct (V1.process_lines _ st1 f1 lines) as [[st2 f2] log2].
  simpl in *. etransitivity; eassumption.
Qed.

(** X19. Until the turn is finalized the reasoning accumulator is only
    appended to: a line adds its reasoning delta, if it has one, at the
    end, and after any part of a stream the old accumulator is a prefix
    of the new one. *)
Theorem accumulator_only_grows
    (JSON_parse : jsstring -> option JSON)
    (st : V1.State) (finished : bool) (line : jsstring)
    (stream : list ReadResult) :
  V1.reasoningAccumulatorRef
    (V1.process_line JSON_parse st finished line).1.1.1 =
  V1.reasoningAccumulatorRef st
    ++ (if is_sentinel line then [] else line_reasoning JSON_parse line)
  /\ V1.reasoningAccumulatorRef st
       `prefix_of` V1.reasoningAccumulatorRef
                     (V1.read_loop JSON_parse st finished stream).1.1.
Proof.
  split; [apply process_line_accumulator|].
  revert st finished. induction stream as [|r stream IH]; intros st finished;
    simpl; [reflexivity|].
  destruct r as [text|e]; [|reflexivity].
  pose proof (process_lines_accumulator JSON_parse (chunk_lines text)
                st finished) as H1.
  destruct (V1.process_lines _ st finished (chunk_lines text))
    as [[st1 f1] log1].
  simpl in H1. destruct f1; [exact H1|].
  specialize (IH st1 false).
  destruct (V1.read_loop _ st1 false stream) as [[st2 e2] log2].
  simpl in *. etransitivity; eassumption.
Qed.

(** ** The second version: every turn that is read to its end *)

Lemma apply_delta2_keeps base capR created cr cp rc c :
  exists created' cr' cp',
    V2.apply_delta capR rc c (turn_state2 base capR created cr cp)
      (turn_locals2 base created) =
    (turn_state2 base capR created' cr' cp', turn_locals2 base created').
Proof.
  unfold V2.apply_delta. destruct c as [v|].
  - destruct created.
    + destruct rc; simpl; exists true; do 2 eexists; reflexivity.
    + destruct rc; simpl; exists true; do 2 eexists;
        unfold turn_state2, turn_locals2, V2.set_currentResponse,
          V2.set_currentReasoning, V2.set_messages; simpl;
        rewrite length_app; simpl;
        replace (Z.of_nat (length base + 1) - 1)%Z
          with (Z.of_nat (length base)) by lia;
        reflexivity.
  - destruct rc; simpl; exists created; do 2 eexists; reflexivity.
Qed.

Lemma process_line2_keeps JSON_parse base capR created cr cp line :
  exists created' cr' cp' log,
    V2.process_line JSON_parse capR (turn_state2 base capR created cr cp)
      (turn_locals2 base created) line =
    (turn_state2 base capR created' cr' cp', turn_locals2 base created', log).
Proof.
  unfold V2.process_line. destruct (is_sentinel line); [eauto 10|].
  destruct (V2.decode _) as [|rc c]; [eauto 10|].
  destruct (apply_delta2_keeps base capR created cr cp rc c)
    as (created' & cr' & cp' & ->). eauto 10.
Qed.

Lemma process_lines2_keep JSON_parse base capR lines :
  forall created cr cp,
  exists created' cr' cp' log,
    V2.process_lines JSON_parse capR (turn_state2 base capR created cr cp)
      (turn_locals2 base created) lines =
    (turn_state2 base capR created' cr' cp', turn_locals2 base created', log).
Proof.
  induction lines as [|l lines IH]; intros created cr cp; simpl.
  - eauto 10.
  - destruct (process_line2_keeps JSON_parse base capR created cr cp l)
      as (c1 & cr1 & cp1 & log1 & ->).
    destruct (IH c1 cr1 cp1) as (c2 & cr2 & cp2 & log2 & ->). eauto 10.
Qed.

Lemma read_loop2_keeps JSON_parse base capR chunks :
  forall created cr cp,
  exists created' cr' cp' log,
    V2.read_loop JSON_parse capR (turn_state2 base capR created cr cp)
      (turn_locals2 base created) (map Chunk chunks) =
    (turn_state2 base capR created' cr' cp', turn_locals2 base created',
     StreamDone, log).
Proof.
  induction chunks as [|c chunks IH]; intros created cr cp; simpl.
  - eauto 10.
  - destruct (process_lines2_keep JSON_parse base capR (chunk_lines c)
                created cr cp) as (c1 & cr1 & cp1 & log1 & ->).
    destruct (IH c1 cr1 cp1) as (c2 & cr2 & cp2 & log2 & ->). eauto 10.
Qed.

Lemma finish_turn_turn_state2 base capR capP created cr cp :
  V2.finish_turn capR capP (turn_state2 base capR created cr cp)
    (turn_locals2 base created) =
  V2.mkState
    (base ++ [mkMessage capP false (if created then Some capR else None)
                (Some true) (Some created)])
    true cr [].
Proof.
  unfold V2.finish_turn. destruct created; cbn [turn_locals2 turn_state2
    V2.reasoningMessageIndex V2.messages]; [|reflexivity].
  assert (E : (Z.of_nat (length base) =? -1)%Z = false)
    by (apply Z.eqb_neq; lia).
  rewrite E. cbn [negb]. rewrite Nat2Z.id.
  rewrite list_lookup_middle by reflexivity.
  replace (length base) with (length base + 0)%nat at 1 by lia.
  rewrite insert_app_r. cbn. rewrite str_or_nil_r.
  destruct capR; reflexivity.
Qed.


Example second_version_sample :
  V2.messages
    (V2.handleSend sample_parse empty_state2 (js "hi")
       (ok_response (map Chunk sample_chunks))).1 =
  [user_message (js "hi");
   mkMessage [] false (Some []) (Some true) (Some true)].
Proof. vm_compute. reflexivity. Qed.

(** ** The second version: cutting a chunk at a newline *)

Lemma process_lines2_app JSON_parse capR la lb : forall st loc,
  V2.process_lines JSON_parse capR st loc (la ++ lb) =
    (let '(s1, l1, g1) := V2.process_lines JSON_parse capR st loc la in
     let '(s2, l2, g2) := V2.process_lines JSON_parse capR s1 l1 lb in
     (s2, l2, g1 ++ g2)).
Proof.
  induction la as [|l la IH]; intros st loc; simpl.
  - destruct (V2.process_lines _ _ st loc lb) as [[s2 l2] g2]. reflexivity.
  - destruct (V2.process_line _ _ st loc l) as [[s0 l0] g0]. rewrite IH.
    destruct (V2.process_lines _ _ s0 l0 la) as [[s1 l1] g1].
    destruct (V2.process_lines _ _ s1 l1 lb) as [[s2 l2] g2].
    rewrite app_assoc. reflexivity.
Qed.

(** X21. In the second version a chunk can always be delivered in two
    reads, cut after one of its newlines: the state, the local variables
    and the end of the loop are the same. *)
Theorem second_version_chunk_cut
    (JSON_parse : jsstring -> option JSON)
    (capturedReasoning : jsstring)
    (st : V2.State) (loc : V2.Locals) (a b : jsstring)
    (rest : list ReadResult) :
  (V2.read_loop JSON_parse capturedReasoning st loc
     (Chunk (a ++ NEWLINE :: b) :: rest)).1 =
  (V2.read_loop JSON_parse capturedReasoning st loc
     (Chunk (a ++ [NEWLINE]) :: Chunk b :: rest)).1.
Proof.
  simpl. rewrite !chunk_lines_newline.
  change (chunk_lines []) with (@nil jsstring). rewrite app_nil_r.
  rewrite process_lines2_app.
  destruct (V2.process_lines _ _ st loc (chunk_lines a)) as [[s1 l1] g1].
  destruct (V2.process_lines _ _ s1 l1 (chunk_lines b)) as [[s2 l2] g2].
  destruct (V2.read_loop _ _ s2 l2 rest) as [[[s3 l3] e3] g3]. reflexivity.
Qed.
